(** * A shallow embedding of the call-tree engine of scope_timer

    The modelled code is [scope_timer::detail] of
    src/include/scope_timer_internal.hpp, which is textually the same as
    src/charmonium/scope_timer/{timer,thread,scope_timer}.hpp and the
    [Process] of src/unnamed/part_003:
    - [Timer]   : one frame record with its index links and timestamps;
    - [Thread]  : the per-thread active stack ([stack]), the finished buffer
                  ([finished]), the index counter and [last_log];
    - [Process] : the enablement flag, the callback period and the callback;
    - [ScopeTimer] : the RAII guard.

    Representation choices:
    - [IndexNo] ([size_t]) is a [nat] below 2^64; [index++] wraps from
      [size_max] to 0 ([index_incr]), as do the [size_t] index counters of
      the two cpu_timer versions.
    - [CpuTime] and [WallTime] are nanosecond counts in [N].
    - The clocks ([wall_now], [cpu_now], in the missing clock.hpp) are
      external: two arbitrary functions of a read counter [ticks] kept in
      the thread.  Every clock read advances [ticks] by one.
    - [std::deque] [stack] is a list whose head is [stack.back()] (the top);
      [finished] is a list in push order ([emplace_back] appends).
    - The name, source location, payload and [process_start] fields of a
      [Timer] are carried verbatim and never inspected by the code; they are
      left out.
    - An [assert] that would fire is recorded, with its message, in the
      thread's [failed] log (in a debug build the program aborts there).
    - The callback object is either the base [CallbackType] (all three hooks
      empty) or the [StoreCallback] consumer of src/test/main.cpp, whose
      [thread_in_situ] and [thread_stop] call [drain_finished] and store the
      batch.  Every hook invocation is appended to the [trace] of the world,
      together with the frames the hook drained. *)

From Stdlib Require Import List Arith NArith Lia String Bool Permutation.
From Stdlib Require Import Sorting.Sorted.
Import ListNotations.

Definition IndexNo := nat.
Definition CpuTime := N.
Definition WallTime := N.

(** [size_t] arithmetic, wrap-around written out. *)
Definition size_max : N := 18446744073709551615%N.
Definition size_t_incr (c : N) : N := if (c =? size_max)%N then 0%N else N.succ c.

(** [i++] on a [size_t] index counter held as a [nat]. *)
Definition index_incr (i : nat) : nat := N.to_nat (size_t_incr (N.of_nat i)).

(** ** Timer (class [Timer]) *)

Record Timer := mkTimer {
  index : IndexNo;
  caller_index : IndexNo;
  prev_index : IndexNo;
  start_wall : WallTime;
  start_cpu : CpuTime;
  stop_wall : WallTime;
  stop_cpu : CpuTime;
  youngest_child_index : IndexNo
}.

(** Constructor [Timer(process_start, name, source_loc, index, caller_index,
    prev_index, info)]: timestamps and [youngest_child_index] start at 0. *)
Definition Timer_new (index_ caller_index_ prev_index_ : IndexNo) : Timer :=
  mkTimer index_ caller_index_ prev_index_ 0%N 0%N 0%N 0%N 0.

Definition set_youngest_child_index (t : Timer) (y : IndexNo) : Timer :=
  mkTimer (index t) (caller_index t) (prev_index t) (start_wall t)
          (start_cpu t) (stop_wall t) (stop_cpu t) y.

(** [is_leaf], [has_prev]. *)
Definition is_leaf (t : Timer) : bool := youngest_child_index t =? 0.
Definition has_prev (t : Timer) : bool := negb (prev_index t =? 0).

Section Clock.

(** The clock collaborators: the value [wall_now()] / [cpu_now()] returns
    at the [k]-th clock read of the thread. *)
Variable wall_clock : nat -> WallTime.
Variable cpu_clock : nat -> CpuTime.

(** [Timer::start_timers]: assert, then [start_wall = wall_now();
    start_cpu = cpu_now();].  Returns the timer, the clock counter and the
    assertions that fire. *)
Definition start_timers (t : Timer) (ticks : nat)
  : Timer * nat * list string :=
  let fails := if (start_cpu t =? 0)%N then [] else ["timer already started"%string] in
  let t' := mkTimer (index t) (caller_index t) (prev_index t)
                    (wall_clock ticks) (cpu_clock (S ticks))
                    (stop_wall t) (stop_cpu t) (youngest_child_index t) in
  (t', S (S ticks), fails).

(** [Timer::stop_timers]: assert on [stop_cpu], [stop_wall = wall_now();
    stop_cpu = cpu_now();], then assert on [start_cpu]. *)
Definition stop_timers (t : Timer) (ticks : nat)
  : Timer * nat * list string :=
  let fails1 := if (stop_cpu t =? 0)%N then [] else ["timer already started"%string] in
  let t' := mkTimer (index t) (caller_index t) (prev_index t)
                    (start_wall t) (start_cpu t)
                    (wall_clock ticks) (cpu_clock (S ticks))
                    (youngest_child_index t) in
  let fails2 := if negb (start_cpu t' =? 0)%N then [] else ["timer never started"%string] in
  (t', S (S ticks), fails1 ++ fails2).

End Clock.

(** ** Process and callback *)

Inductive CallbackType :=
| BaseCallback    (** [new CallbackType]: the three hooks do nothing *)
| StoreCallback.  (** src/test/main.cpp: in situ and stop hooks drain *)

Record Process := mkProcess {
  enabled : bool;
  callback_period : CpuTime;
  callback : CallbackType
}.

(** [Process::set_enabled], [set_callback_period], [callback_every_frame],
    [callback_once], [set_callback]. *)
Definition set_enabled (p : Process) (b : bool) : Process :=
  mkProcess b (callback_period p) (callback p).
Definition set_callback_period (p : Process) (c : CpuTime) : Process :=
  mkProcess (enabled p) c (callback p).
Definition callback_every_frame (p : Process) : Process := set_callback_period p 1%N.
Definition callback_once (p : Process) : Process := set_callback_period p 0%N.
Definition set_callback (p : Process) (cb : CallbackType) : Process :=
  mkProcess (enabled p) (callback_period p) cb.

(** ** Thread (class [Thread]) *)

Record Thread := mkThread {
  stack : list Timer;        (** head = [stack.back()] *)
  finished : list Timer;     (** in push order *)
  next_index : IndexNo;      (** the field [index] *)
  last_log : CpuTime;
  ticks : nat;               (** clock reads so far *)
  failed : list string       (** assertions that fire *)
}.

(** One hook invocation, with the frames the hook drained. *)
Inductive Event :=
| ev_thread_start
| ev_thread_in_situ (drained : list Timer)
| ev_thread_stop (drained : list Timer).

Record World := mkWorld {
  process : Process;
  thread : Thread;
  trace : list Event
}.

Definition set_thread (w : World) (th : Thread) : World :=
  mkWorld (process w) th (trace w).
Definition set_process (w : World) (p : Process) : World :=
  mkWorld p (thread w) (trace w).

(** [Thread::drain_finished]: swap [finished] with an empty deque. *)
Definition drain_finished (th : Thread) : list Timer * Thread :=
  (finished th,
   mkThread (stack th) [] (next_index th) (last_log th) (ticks th) (failed th)).

(** The hooks of the process's current callback ([get_callback()] reads
    [process.callback]). *)
Definition thread_start (w : World) : World :=
  mkWorld (process w) (thread w) (trace w ++ [ev_thread_start]).

Definition thread_in_situ (w : World) : World :=
  match callback (process w) with
  | BaseCallback => mkWorld (process w) (thread w) (trace w ++ [ev_thread_in_situ []])
  | StoreCallback =>
      let '(b, th') := drain_finished (thread w) in
      mkWorld (process w) th' (trace w ++ [ev_thread_in_situ b])
  end.

Definition thread_stop (w : World) : World :=
  match callback (process w) with
  | BaseCallback => mkWorld (process w) (thread w) (trace w ++ [ev_thread_stop []])
  | StoreCallback =>
      let '(b, th') := drain_finished (thread w) in
      mkWorld (process w) th' (trace w ++ [ev_thread_stop b])
  end.

Section ThreadOps.
Variable wall_clock : nat -> WallTime.
Variable cpu_clock : nat -> CpuTime.

(** [Thread::enter_stack_frame]. *)
Definition enter_stack_frame (th : Thread) : Thread :=
  let this_index := next_index th in
  let '(caller_index_, prev_index_, stack_) :=
    match stack th with
    | [] => (0, 0, [])
    | caller :: rest =>
        (index caller, youngest_child_index caller,
         set_youngest_child_index caller this_index :: rest)
    end in
  let '(fr, ticks', fails) :=
    start_timers wall_clock cpu_clock
      (Timer_new this_index caller_index_ prev_index_) (ticks th) in
  mkThread (fr :: stack_) (finished th) (index_incr this_index) (last_log th)
           ticks' (failed th ++ fails).

(** [Thread::maybe_flush]: [now] is the stop CPU time of the last finished
    frame; the period is read from the process. *)
Definition maybe_flush (w : World) : World :=
  match finished (thread w) with
  | [] => w
  | f0 :: _ =>
      let now := stop_cpu (last (finished (thread w)) f0) in
      let process_callback_period := callback_period (process w) in
      if negb (process_callback_period =? 0)%N
         && ((process_callback_period =? 1)%N
             || (last_log (thread w) + process_callback_period <? now)%N)
      then thread_in_situ w
      else w
  end.

Definition exit_msg : string :=
  "somehow exit_stack_frame was called more times than enter_stack_frame".

(** [Thread::exit_stack_frame].  When the stack is empty the assertion
    fires and [stack.back()] is undefined; the model stops there. *)
Definition exit_stack_frame (w : World) : World :=
  let th := thread w in
  match stack th with
  | [] =>
      set_thread w (mkThread (stack th) (finished th) (next_index th)
                             (last_log th) (ticks th) (failed th ++ [exit_msg]))
  | top :: rest =>
      let '(top', ticks', fails) := stop_timers wall_clock cpu_clock top (ticks th) in
      maybe_flush
        (set_thread w (mkThread rest (finished th ++ [top']) (next_index th)
                                (last_log th) ticks' (failed th ++ fails)))
  end.

(** Constructor [Thread(process, id, native_handle, name)]: [index{0}],
    [last_log{0}], enter the root frame, then [thread_start]. *)
Definition Thread_new (p : Process) : World :=
  let th := enter_stack_frame (mkThread [] [] 0 0%N 0 []) in
  thread_start (mkWorld p th []).

Definition enter_msg : string :=
  "somewhow enter_stack_frame was called more times than exit_stack_frame".

(** Destructor [~Thread]. *)
Definition Thread_drop (w : World) : World :=
  let w1 := exit_stack_frame w in
  let th := thread w1 in
  let w2 := match stack th with
            | [] => w1
            | _ :: _ =>
                set_thread w1 (mkThread (stack th) (finished th) (next_index th)
                                        (last_log th) (ticks th) (failed th ++ [enter_msg]))
            end in
  thread_stop w2.

(** ** Sequences of enter/exit calls on one thread *)

Inductive op := Enter | Exit.

Definition step (w : World) (o : op) : World :=
  match o with
  | Enter => set_thread w (enter_stack_frame (thread w))
  | Exit => exit_stack_frame w
  end.

Definition run_ops (w : World) (os : list op) : World := fold_left step os w.

(** ** The RAII guard (class [ScopeTimer]) *)

Record ScopeTimer := mkScopeTimer { scope_enabled : bool }.

(** [ScopeTimer(args)]: [enabled{args.process->is_enabled()}], then enter if
    enabled. *)
Definition ScopeTimer_new (w : World) : ScopeTimer * World :=
  let en := enabled (process w) in
  (mkScopeTimer en,
   if en then set_thread w (enter_stack_frame (thread w)) else w).

(** [~ScopeTimer()]: exit if the captured flag is set. *)
Definition ScopeTimer_drop (g : ScopeTimer) (w : World) : World :=
  if scope_enabled g then exit_stack_frame w else w.

(** Programs built from guarded scopes and [set_enabled] calls. *)
Inductive scoped :=
| Scope (body : list scoped)
| SetEnabled (b : bool).

Fixpoint run_scoped (s : scoped) (w : World) : World :=
  match s with
  | SetEnabled b => set_process w (set_enabled (process w) b)
  | Scope body =>
      let '(g, w1) := ScopeTimer_new w in
      ScopeTimer_drop g
        ((fix run_body (l : list scoped) (w : World) : World :=
            match l with
            | [] => w
            | s' :: l' => run_body l' (run_scoped s' w)
            end) body w1)
  end.

End ThreadOps.

(** Depth bookkeeping of a call sequence: [close_depth d os] is the number of
    frames above the root still open after [os] starting with [d] open ones,
    or [None] when [os] exits the root. *)
Fixpoint close_depth (d : nat) (os : list op) : option nat :=
  match os with
  | [] => Some d
  | Enter :: os' => close_depth (S d) os'
  | Exit :: os' => match d with 0 => None | S d' => close_depth d' os' end
  end.

(** Properly nested: never exits the root; balanced: every enter has its
    exit. *)
Definition properly_nested (os : list op) : bool :=
  match close_depth 0 os with Some _ => true | None => false end.
Definition balanced (os : list op) : bool :=
  match close_depth 0 os with Some 0 => true | _ => false end.

Definition count_enters (os : list op) : nat :=
  List.length (filter (fun o => match o with Enter => true | Exit => false end) os).

(** Frames handed to the consumer by the hooks, in delivery order. *)
Definition ev_frames (e : Event) : list Timer :=
  match e with
  | ev_thread_start => []
  | ev_thread_in_situ b => b
  | ev_thread_stop b => b
  end.
Definition delivered (tr : list Event) : list Timer := flat_map ev_frames tr.

Definition is_stop (e : Event) : bool :=
  match e with ev_thread_stop _ => true | _ => false end.
Definition is_in_situ (e : Event) : bool :=
  match e with ev_thread_in_situ _ => true | _ => false end.
Definition count_stops (tr : list Event) : nat := List.length (filter is_stop tr).

(** Every frame of the thread: active, finished, or handed out. *)
Definition all_frames (w : World) : list Timer :=
  stack (thread w) ++ finished (thread w) ++ delivered (trace w).

(** A clock that returns the read counter itself, for concrete runs. *)
Definition ticks_clock (k : nat) : N := N.of_nat k.

(** ** Decoding of the callback period into the spec's flush policies
    ([callback_once] = 0, [callback_every_frame] = 1, otherwise periodic). *)
Inductive policy := Never | Always | Periodic (threshold : CpuTime).

Definition policy_of_period (p : CpuTime) : policy :=
  if (p =? 0)%N then Never else if (p =? 1)%N then Always else Periodic p.

(** Induction over guarded programs, through the nested list of bodies. *)
Fixpoint scoped_ind' (P : scoped -> Prop)
  (fs : forall b, P (SetEnabled b))
  (fsc : forall body, Forall P body -> P (Scope body)) (s : scoped) : P s :=
  match s with
  | SetEnabled b => fs b
  | Scope body =>
      fsc body
        ((fix go (l : list scoped) : Forall P l :=
            match l as l0 return Forall P l0 with
            | [] => Forall_nil P
            | x :: l' => Forall_cons x (scoped_ind' P fs fsc x) (go l')
            end) body)
  end.

(** ** Invariants and views used by the proofs *)

(** What the hooks leave untouched. *)
Definition same_but_buffer (w w' : World) : Prop :=
  process w' = process w /\
  stack (thread w') = stack (thread w) /\
  next_index (thread w') = next_index (thread w) /\
  last_log (thread w') = last_log (thread w) /\
  ticks (thread w') = ticks (thread w) /\
  failed (thread w') = failed (thread w).

(** Same stack depth, and the exit assertion not fired in between. *)
Definition keeps_pairing (w w' : World) : Prop :=
  List.length (stack (thread w')) = List.length (stack (thread w)) /\
  exists xs, failed (thread w') = failed (thread w) ++ xs /\ ~ In exit_msg xs.

(** ** The call-tree invariant, on the link fields of the frames *)

Record Link := mkLink { l_index : nat; l_caller : nat; l_prev : nat; l_youngest : nat }.

Definition links (t : Timer) : Link :=
  mkLink (index t) (caller_index t) (prev_index t) (youngest_child_index t).

(** The largest index below [b] of a non-root frame called by [q] (0 when
    there is none): the youngest child of [q] among the first [b] frames. *)
Definition youngest_below (L : list Link) (q b : nat) : nat :=
  fold_right (fun c m =>
    if (0 <? l_index c) && (l_index c <? b) && (l_caller c =? q)
    then Nat.max (l_index c) m else m) 0 L.

Definition tree_inv (n : nat) (L : list Link) : Prop :=
  Permutation (map l_index L) (seq 0 n) /\
  (forall p, In p L -> l_youngest p = youngest_below L (l_index p) n) /\
  (forall c, In c L -> 0 < l_index c ->
     l_caller c < l_index c /\ l_prev c = youngest_below L (l_caller c) (l_index c)) /\
  (forall c, In c L -> l_index c = 0 -> l_caller c = 0 /\ l_prev c = 0).

(** The completion-order view: frames handed out, then frames still
    finished. *)
Definition completed (w : World) : list Timer :=
  delivered (trace w) ++ finished (thread w).

(** The call-tree invariant of a world: the link fields of all its frames,
    numbered by the thread's index counter. *)
Definition frames_inv (w : World) : Prop :=
  tree_inv (next_index (thread w)) (map links (all_frames w)).

(** Walking a sibling list: from an index, visit the frame with that index
    and continue with its [prev_index]; index 0 ends the walk. *)
Inductive prev_chain (F : list Timer) : IndexNo -> list IndexNo -> Prop :=
| prev_chain_end : prev_chain F 0 []
| prev_chain_step t l :
    index t <> 0 -> In t F -> prev_chain F (prev_index t) l ->
    prev_chain F (index t) (index t :: l).

(** Order of the timestamps: start stamps against the index order, stop
    stamps against the completion order, all bounded by the clock's current
    reading. *)
Definition start_key (t : Timer) : nat * N * N := (index t, start_wall t, start_cpu t).

Definition stop_rel (R : N -> N -> Prop) (a b : Timer) : Prop :=
  R (stop_wall a) (stop_wall b) /\ R (stop_cpu a) (stop_cpu b).

Definition start_ok (R : N -> N -> Prop) (wc : nat -> WallTime) (cc : nat -> CpuTime)
  (n k : nat) (M : list (nat * N * N)) : Prop :=
  (forall i sw sc, In (i, sw, sc) M -> i < n /\ R sw (wc k) /\ R sc (cc k)) /\
  (forall i sw sc j sw' sc', In (i, sw, sc) M -> In (j, sw', sc') M -> i < j ->
     R sw sw' /\ R sc sc').

Definition time_inv (R : N -> N -> Prop) (wc : nat -> WallTime) (cc : nat -> CpuTime)
  (w : World) : Prop :=
  let k := ticks (thread w) in
  start_ok R wc cc (next_index (thread w)) k (map start_key (all_frames w)) /\
  (forall f, In f (completed w) -> R (stop_wall f) (wc k) /\ R (stop_cpu f) (cc k)) /\
  StronglySorted (stop_rel R) (completed w).

(** No assertion has fired, and every active frame is started and not yet
    stopped. *)
Definition clean_inv (w : World) : Prop :=
  failed (thread w) = [] /\
  (forall f, In f (stack (thread w)) -> stop_cpu f = 0%N /\ start_cpu f <> 0%N).

(** The flush decision of [maybe_flush], stated per policy, from the time
    of the last flush and [now]. *)
Definition flush_due (pol : policy) (last now : CpuTime) : bool :=
  match pol with
  | Never => false
  | Always => true
  | Periodic threshold => (last + threshold <? now)%N
  end.

(** ** The thread registry of [Process]

    [Process::create_thread] and [Process::delete_thread] keep the threads
    in an [unordered_map] keyed by [std::thread::id], with a use count per
    id: one use per [ThreadContainer], the [thread_local] holder of
    charmonium/scope_timer/global_state.hpp, whose constructor calls
    [create_thread] and whose destructor calls [delete_thread].  The
    registry code does not look inside the value it stores, so it is
    written over it: [construct] is the constructor [emplace] runs and
    [destroy] the destructor [erase] runs, whose outcome is recorded. *)

Definition ThreadId := nat.

(** [size_t] decrement of the use count, wrap-around written out. *)
Definition size_t_decr (c : N) : N := if (c =? 0)%N then size_max else N.pred c.

(** A map keyed by thread id, as a function; [map_set m k v] is [m[k] = v]. *)
Definition map_set {V : Type} (m : ThreadId -> V) (k : ThreadId) (v : V) : ThreadId -> V :=
  fun k' => if Nat.eqb k' k then v else m k'.

(** What the registry sees of a program: a container built or destroyed
    for a thread id, or work done on the thread through the reference
    [create_thread] returned. *)
Inductive reg_op (V : Type) :=
| Create (id : ThreadId)
| Delete (id : ThreadId)
| Use (id : ThreadId) (f : V -> V).
Arguments Create {V} id.
Arguments Delete {V} id.
Arguments Use {V} id f.

Record Registry (Cfg V Out : Type) := mkRegistry {
  reg_config : Cfg;                   (** the rest of the [Process] *)
  threads : ThreadId -> option V;     (** [threads]; [count] is [<> None] *)
  thread_use_count : ThreadId -> N;   (** [operator[]] reads 0 when absent *)
  destroyed : list (ThreadId * Out)   (** values erased, with their outcome *)
}.
Arguments mkRegistry {Cfg V Out} _ _ _ _.
Arguments reg_config {Cfg V Out} _.
Arguments threads {Cfg V Out} _ _.
Arguments thread_use_count {Cfg V Out} _ _.
Arguments destroyed {Cfg V Out} _.

Section Registry.
Context {Cfg V Out : Type}.
Variable construct : Cfg -> V.
Variable destroy : Cfg -> V -> Out.

Definition Registry_new (c : Cfg) : Registry Cfg V Out :=
  mkRegistry c (fun _ => None) (fun _ => 0%N) [].

(** [Process::create_thread]: construct the value if the id is absent,
    then [thread_use_count[thread]++]. *)
Definition create_thread (r : Registry Cfg V Out) (id : ThreadId) : Registry Cfg V Out :=
  let threads' :=
    match threads r id with
    | None => map_set (threads r) id (Some (construct (reg_config r)))
    | Some _ => threads r
    end in
  mkRegistry (reg_config r) threads'
    (map_set (thread_use_count r) id (size_t_incr (thread_use_count r id)))
    (destroyed r).

(** [Process::delete_thread]: when the id is present,
    [thread_use_count[thread]--], and [erase] it once the count reads 0. *)
Definition delete_thread (r : Registry Cfg V Out) (id : ThreadId) : Registry Cfg V Out :=
  match threads r id with
  | None => r
  | Some v =>
      let c := size_t_decr (thread_use_count r id) in
      let uc := map_set (thread_use_count r) id c in
      if (c =? 0)%N
      then mkRegistry (reg_config r) (map_set (threads r) id None) uc
                      (destroyed r ++ [(id, destroy (reg_config r) v)])
      else mkRegistry (reg_config r) (threads r) uc (destroyed r)
  end.

(** Work done on a live entry through the returned reference. *)
Definition use_thread (r : Registry Cfg V Out) (id : ThreadId) (f : V -> V)
  : Registry Cfg V Out :=
  match threads r id with
  | None => r
  | Some v => mkRegistry (reg_config r) (map_set (threads r) id (Some (f v)))
                         (thread_use_count r) (destroyed r)
  end.

Definition reg_step (r : Registry Cfg V Out) (o : reg_op V) : Registry Cfg V Out :=
  match o with
  | Create id => create_thread r id
  | Delete id => delete_thread r id
  | Use id f => use_thread r id f
  end.

Definition run_registry (r : Registry Cfg V Out) (os : list (reg_op V)) : Registry Cfg V Out :=
  fold_left reg_step os r.

End Registry.

(** The containers alive for [id] along a program, starting from [d];
    [None] once the count drops to 0. *)
Fixpoint live_containers {V : Type} (id : ThreadId) (d : nat) (os : list (reg_op V))
  : option nat :=
  match os with
  | [] => Some d
  | Create i :: os' => live_containers id (if Nat.eqb i id then S d else d) os'
  | Delete i :: os' =>
      if Nat.eqb i id
      then match d with 0 | 1 => None | S d' => live_containers id d' os' end
      else live_containers id d os'
  | Use _ _ :: os' => live_containers id d os'
  end.

(** The work a program does on the entry of [id]. *)
Fixpoint uses_of {V : Type} (id : ThreadId) (os : list (reg_op V)) (v : V) : V :=
  match os with
  | [] => v
  | Use i f :: os' => uses_of id os' (if Nat.eqb i id then f v else v)
  | _ :: os' => uses_of id os' v
  end.

(** The thread id an operation is for. *)
Definition op_thread {V : Type} (o : reg_op V) : ThreadId :=
  match o with Create i | Delete i | Use i _ => i end.

(** The scope_timer registry: the value is the [Thread] with its hook
    trace, constructed by [Thread(...)] (root frame, [thread_start]);
    destroying it runs [~Thread] and keeps the final trace. *)
Definition thread_construct (wc : nat -> WallTime) (cc : nat -> CpuTime) (p : Process)
  : Thread * list Event :=
  let w := Thread_new wc cc p in (thread w, trace w).
Definition thread_destroy (wc : nat -> WallTime) (cc : nat -> CpuTime) (p : Process)
  (v : Thread * list Event) : list Event :=
  trace (Thread_drop wc cc (mkWorld p (fst v) (snd v))).

(** Running a sequence of enter/exit calls on a registered thread. *)
Definition thread_use (wc : nat -> WallTime) (cc : nat -> CpuTime) (p : Process) (os : list op)
  (v : Thread * list Event) : Thread * list Event :=
  let w := run_ops wc cc (mkWorld p (fst v) (snd v)) os in (thread w, trace w).

(** ** The second cpu_timer version (cpu_timer_internal.hpp, lines 388-871)

    [Frame], [Stack] and [Process] of namespace [cpu_timer::detail], the
    predecessor of [scope_timer::detail], with the representation choices
    above.  A [const char*] function name is a [nat] compared by address
    (0 is [nullptr]).  The callback is a [std::function] that may be empty:
    a flag, and every call of it is recorded with the batch it receives (it
    also receives the [Stack] and the active frames, read-only). *)
Module CpuTimer2.

Definition FuncName := nat.

Record Frame := mkFrame {
  function_name : FuncName;
  caller_start_index : nat;
  start_wall : WallTime;
  start_cpu : CpuTime;
  start_index : nat;
  stop_wall : WallTime;
  stop_cpu : CpuTime;
  stop_index : nat
}.

(** Constructor [Frame(process_start, function_name, file_name, line,
    caller_start_index, info)]. *)
Definition Frame_new (fn : FuncName) (caller : nat) : Frame :=
  mkFrame fn caller 0%N 0%N 0 0%N 0%N 0.

Record Process := mkProcess {
  enabled : bool;
  log_period : CpuTime;
  callback : bool              (** the [std::function] is non-empty *)
}.

Record Stack := mkStack {
  stack : list Frame;          (** head = [stack.back()] *)
  finished : list Frame;       (** in push order *)
  stack_start_index : nat;     (** the field [start_index] *)
  stack_stop_index : nat;      (** the field [stop_index] *)
  last_log : CpuTime;
  ticks : nat;
  failed : list string
}.

Record World := mkWorld {
  process : Process;
  st : Stack;
  calls : list (list Frame)    (** the batches handed to the callback *)
}.

Definition set_st (w : World) (s : Stack) : World := mkWorld (process w) s (calls w).

Definition add_failure (s : Stack) (m : string) : Stack :=
  mkStack (stack s) (finished s) (stack_start_index s) (stack_stop_index s)
          (last_log s) (ticks s) (failed s ++ [m]).

Definition misaligned_msg : string :=
  "somehow enter_stack_frame and exit_stack_frame for this frame are misaligned".
Definition drain_msg : string :=
  "flush() should drain this buffer, and nobody should be adding to it now. Somehow unflushed Frames are still present".

Section Ops.
Variable wall_clock : nat -> WallTime.
Variable cpu_clock : nat -> CpuTime.

(** [Frame::start_timer(start_index_)]. *)
Definition start_timer (f : Frame) (i : nat) (ticks : nat) : Frame * nat * list string :=
  let fails := if (start_cpu f =? 0)%N then []
               else ["start_timer should only be called once"%string] in
  (mkFrame (function_name f) (caller_start_index f) (wall_clock ticks) (cpu_clock (S ticks))
           i (stop_wall f) (stop_cpu f) (stop_index f), S (S ticks), fails).

(** [Frame::stop_timer(stop_index_)]. *)
Definition stop_timer (f : Frame) (i : nat) (ticks : nat) : Frame * nat * list string :=
  let fails1 := if (stop_cpu f =? 0)%N then []
                else ["stop_timer should only be called once"%string] in
  let fails2 := if negb (start_cpu f =? 0)%N then []
                else ["stop_timer should be called after start_timer"%string] in
  (mkFrame (function_name f) (caller_start_index f) (start_wall f) (start_cpu f)
           (start_index f) (wall_clock ticks) (cpu_clock (S ticks)) i,
   S (S ticks), fails1 ++ fails2).

(** [Stack::enter_stack_frame]. *)
Definition enter_stack_frame (fn : FuncName) (s : Stack) : Stack :=
  let caller := match stack s with [] => 0 | top :: _ => start_index top end in
  let '(f, ticks', fails) :=
    start_timer (Frame_new fn caller) (stack_start_index s) (ticks s) in
  mkStack (f :: stack s) (finished s) (index_incr (stack_start_index s)) (stack_stop_index s)
          (last_log s) ticks' (failed s ++ fails).

(** [Stack::flush_with_locks]: swap [finished] out, then call the callback
    if there is one. *)
Definition flush_with_locks (w : World) : World :=
  let s := st w in
  let s' := mkStack (stack s) [] (stack_start_index s) (stack_stop_index s)
                    (last_log s) (ticks s) (failed s) in
  if callback (process w) then mkWorld (process w) s' (calls w ++ [finished s])
  else mkWorld (process w) s' (calls w).

(** [Stack::flush]. *)
Definition flush (w : World) : World :=
  match finished (st w) with [] => w | _ :: _ => flush_with_locks w end.

(** [Stack::maybe_flush]. *)
Definition maybe_flush (w : World) : World :=
  match finished (st w) with
  | [] => w
  | f0 :: _ =>
      let now := stop_cpu (last (finished (st w)) f0) in
      let process_log_period := log_period (process w) in
      if negb (process_log_period =? 0)%N && (last_log (st w) + process_log_period <? now)%N
      then flush_with_locks w else w
  end.

(** [Stack::exit_stack_frame(function_name)]; the model stops at the first
    assertion when the stack is empty, as for [Thread]. *)
Definition exit_stack_frame (fn : FuncName) (w : World) : World :=
  let s := st w in
  match stack s with
  | [] => set_st w (add_failure s exit_msg)
  | top :: rest =>
      let '(top', ticks', fails) := stop_timer top (stack_stop_index s) (ticks s) in
      let fails' := if Nat.eqb fn (function_name top') then [] else [misaligned_msg] in
      maybe_flush
        (set_st w (mkStack rest (finished s ++ [top']) (stack_start_index s)
                           (index_incr (stack_stop_index s)) (last_log s) ticks'
                           (failed s ++ fails ++ fails')))
  end.

(** Constructor [Stack(process, id, native_handle, name)]. *)
Definition Stack_new (p : Process) : World :=
  mkWorld p (enter_stack_frame 0 (mkStack [] [] 0 0 0%N 0 [])) [].

(** Destructor [~Stack]. *)
Definition Stack_drop (w : World) : World :=
  let w1 := exit_stack_frame 0 w in
  let w2 := match stack (st w1) with
            | [] => w1
            | _ :: _ => set_st w1 (add_failure (st w1) enter_msg)
            end in
  let w3 := flush w2 in
  match finished (st w3) with
  | [] => w3
  | _ :: _ => set_st w3 (add_failure (st w3) drain_msg)
  end.

Definition step (w : World) (o : op * FuncName) : World :=
  match o with
  | (Enter, fn) => set_st w (enter_stack_frame fn (st w))
  | (Exit, fn) => exit_stack_frame fn w
  end.

Definition run_ops (w : World) (os : list (op * FuncName)) : World := fold_left step os w.

End Ops.

(** The frames handed out, then the frames still finished. *)
Definition completed (w : World) : list Frame := List.concat (calls w) ++ finished (st w).

End CpuTimer2.

(** ** The first cpu_timer version (cpu_timer_internal.hpp, lines 1-386)

    [StackFrame] and [Stack] of the first [cpu_timer::detail]: the [Stack]
    copies [is_enabled], [log_period] and [callback] at construction;
    indices count from 1; [last_log] is read from the CPU clock.  The
    assertions carry no message: the condition is recorded. *)
Module CpuTimer1.

Definition FuncName := nat.

(** The address of the [static constexpr] string [Stack::thread_main]. *)
Definition thread_main : FuncName := 1.

Record StackFrame := mkStackFrame {
  function_name : FuncName;
  caller_start_index : nat;
  start_wall : WallTime;
  start_cpu : CpuTime;
  start_index : nat;
  stop_wall : WallTime;
  stop_cpu : CpuTime;
  stop_index : nat
}.

(** Constructor [StackFrame(comment, function_name, file_name, line,
    caller_start_index, process_start)]. *)
Definition StackFrame_new (fn : FuncName) (caller : nat) : StackFrame :=
  mkStackFrame fn caller 0%N 0%N 0 0%N 0%N 0.

Record Stack := mkStack {
  is_enabled : bool;
  log_period : CpuTime;
  callback : bool;             (** the [std::function] is non-empty *)
  stack : list StackFrame;     (** head = [stack.back()] *)
  finished : list StackFrame;  (** in push order *)
  stack_start_index : nat;     (** the field [start_index] *)
  stack_stop_index : nat;      (** the field [stop_index] *)
  last_log : CpuTime;
  ticks : nat;
  failed : list string
}.

Record World := mkWorld {
  st : Stack;
  calls : list (list StackFrame)   (** the batches handed to the callback *)
}.

Definition with_frames (s : Stack) (stk fin : list StackFrame) (si so t : nat)
  (fl : list string) : Stack :=
  mkStack (is_enabled s) (log_period s) (callback s) stk fin si so (last_log s) t fl.

Section Ops.
Variable wall_clock : nat -> WallTime.
Variable cpu_clock : nat -> CpuTime.

(** [StackFrame::start_timer(start_index_)]. *)
Definition start_timer (f : StackFrame) (i : nat) (ticks : nat)
  : StackFrame * nat * list string :=
  let fails := (if start_index f =? 0 then [] else ["start_index == 0"%string]) ++
               (if stop_index f =? 0 then [] else ["stop_index == 0"%string]) ++
               (if negb (i =? 0) then [] else ["start_index != 0"%string]) in
  (mkStackFrame (function_name f) (caller_start_index f) (wall_clock ticks)
                (cpu_clock (S ticks)) i (stop_wall f) (stop_cpu f) (stop_index f),
   S (S ticks), fails).

(** [StackFrame::stop_timer(stop_index_)]. *)
Definition stop_timer (f : StackFrame) (i : nat) (ticks : nat)
  : StackFrame * nat * list string :=
  let fails := (if negb (start_index f =? 0) then [] else ["start_index != 0"%string]) ++
               (if stop_index f =? 0 then [] else ["stop_index == 0"%string]) ++
               (if negb (i =? 0) then [] else ["stop_index != 0"%string]) in
  (mkStackFrame (function_name f) (caller_start_index f) (start_wall f) (start_cpu f)
                (start_index f) (wall_clock ticks) (cpu_clock (S ticks)) i,
   S (S ticks), fails).

(** [Stack::call_callback]: nothing at all when the callback is empty. *)
Definition call_callback (w : World) : World :=
  let s := st w in
  if callback s
  then mkWorld (with_frames s (stack s) [] (stack_start_index s) (stack_stop_index s)
                            (ticks s) (failed s))
               (calls w ++ [finished s])
  else w.

(** [Stack::maybe_call_callback]. *)
Definition maybe_call_callback (w : World) : World :=
  let s := st w in
  match finished s with
  | [] => w
  | f0 :: _ =>
      if negb (log_period s =? 0)%N && (last_log s + log_period s <? stop_cpu (last (finished s) f0))%N
      then call_callback w else w
  end.

(** [Stack::enter_stack_frame]. *)
Definition enter_stack_frame (fn : FuncName) (s : Stack) : Stack :=
  let caller := match stack s with [] => 0 | top :: _ => start_index top end in
  let '(f, ticks', fails) :=
    start_timer (StackFrame_new fn caller) (stack_start_index s) (ticks s) in
  with_frames s (f :: stack s) (finished s) (index_incr (stack_start_index s)) (stack_stop_index s)
              ticks' (failed s ++ fails).

(** [Stack::exit_stack_frame(function_name)]; the model stops at the first
    assertion when the stack is empty. *)
Definition exit_stack_frame (fn : FuncName) (w : World) : World :=
  let s := st w in
  match stack s with
  | [] => mkWorld (with_frames s (stack s) (finished s) (stack_start_index s)
                               (stack_stop_index s) (ticks s) (failed s ++ ["!stack.empty()"%string]))
                  (calls w)
  | top :: rest =>
      let '(top', ticks', fails) := stop_timer top (stack_stop_index s) (ticks s) in
      let fails' := if Nat.eqb fn (function_name top') then []
                    else ["function_name == stack.back().get_function_name()"%string] in
      maybe_call_callback
        (mkWorld (with_frames s rest (finished s ++ [top']) (stack_start_index s)
                              (index_incr (stack_stop_index s)) ticks' (failed s ++ fails ++ fails'))
                 (calls w))
  end.

(** Constructor [Stack(thread_id, is_enabled, process_start, log_period,
    callback)]: [start_index{1}], [stop_index{1}], [last_log{cpu_now()}],
    then the [thread_main] frame. *)
Definition Stack_new (en : bool) (period : CpuTime) (cb : bool) : World :=
  mkWorld (enter_stack_frame thread_main
             (mkStack en period cb [] [] 1 1 (cpu_clock 0) 1 [])) [].

(** Destructor [~Stack]. *)
Definition Stack_drop (w : World) : World :=
  let w1 := exit_stack_frame thread_main w in
  let s1 := st w1 in
  let w2 := match stack s1 with
            | [] => w1
            | _ :: _ => mkWorld (with_frames s1 (stack s1) (finished s1) (stack_start_index s1)
                                   (stack_stop_index s1) (ticks s1)
                                   (failed s1 ++ ["stack.empty()"%string])) (calls w1)
            end in
  match finished (st w2) with
  | [] => w2
  | _ :: _ =>
      let w3 := call_callback w2 in
      let s3 := st w3 in
      match finished s3 with
      | [] => w3
      | _ :: _ => mkWorld (with_frames s3 (stack s3) (finished s3) (stack_start_index s3)
                             (stack_stop_index s3) (ticks s3)
                             (failed s3 ++ ["finished.empty()"%string])) (calls w3)
      end
  end.

End Ops.

End CpuTimer1.

Lemma index_incr_small i : (N.of_nat i < size_max)%N -> index_incr i = S i.
Proof.
  intros H. unfold index_incr, size_t_incr.
  destruct (N.eqb_spec (N.of_nat i) size_max); [lia|].
  rewrite <- Nat2N.inj_succ. apply Nat2N.id.
Qed.

Section Effects.
Variable wall_clock : nat -> WallTime.
Variable cpu_clock : nat -> CpuTime.

Local Abbreviation enter := (enter_stack_frame wall_clock cpu_clock).
Local Abbreviation exit := (exit_stack_frame wall_clock cpu_clock).

Lemma thread_in_situ_same w : same_but_buffer w (thread_in_situ w).
Proof.
  unfold thread_in_situ, same_but_buffer.
  destruct (callback (process w)); simpl; repeat split.
Qed.

Lemma thread_stop_same w : same_but_buffer w (thread_stop w).
Proof.
  unfold thread_stop, same_but_buffer.
  destruct (callback (process w)); simpl; repeat split.
Qed.

Lemma maybe_flush_cases w :
  maybe_flush w = w \/ maybe_flush w = thread_in_situ w.
Proof.
  unfold maybe_flush.
  destruct (finished (thread w)); [now left|].
  destruct (_ && _); [now right | now left].
Qed.

Lemma same_but_buffer_refl w : same_but_buffer w w.
Proof. repeat split. Qed.

Lemma maybe_flush_same w : same_but_buffer w (maybe_flush w).
Proof.
  destruct (maybe_flush_cases w) as [-> | ->];
    [apply same_but_buffer_refl | apply thread_in_situ_same].
Qed.

Lemma start_timers_ticks t k :
  snd (fst (start_timers wall_clock cpu_clock t k)) = S (S k).
Proof. reflexivity. Qed.

Lemma stack_enter th :
  List.length (stack (enter th)) = S (List.length (stack th)).
Proof.
  unfold enter_stack_frame. destruct (stack th); reflexivity.
Qed.

Lemma next_index_enter th : next_index (enter th) = index_incr (next_index th).
Proof.
  unfold enter_stack_frame. destruct (stack th); reflexivity.
Qed.

Lemma exit_nonempty w top rest :
  stack (thread w) = top :: rest ->
  exists th',
    exit w = maybe_flush (set_thread w th') /\
    stack th' = rest /\
    finished th' = finished (thread w) ++
                   [fst (fst (stop_timers wall_clock cpu_clock top (ticks (thread w))))] /\
    next_index th' = next_index (thread w) /\
    last_log th' = last_log (thread w) /\
    ticks th' = S (S (ticks (thread w))) /\
    failed th' = failed (thread w) ++
                 snd (stop_timers wall_clock cpu_clock top (ticks (thread w))).
Proof.
  intros H. unfold exit_stack_frame. rewrite H.
  eexists. split; [reflexivity|]. simpl. repeat split.
Qed.

Lemma stack_exit w top rest :
  stack (thread w) = top :: rest -> stack (thread (exit w)) = rest.
Proof.
  intros H. destruct (exit_nonempty w top rest H) as [th' [-> [Hs _]]].
  destruct (maybe_flush_same (set_thread w th')) as [_ [-> _]]. exact Hs.
Qed.

Lemma exit_keeps_process w : process (exit w) = process w.
Proof.
  unfold exit_stack_frame. destruct (stack (thread w)); [reflexivity|].
  destruct (stop_timers _ _ _ _) as [[? ?] ?].
  destruct (maybe_flush_same (set_thread w (mkThread l (finished (thread w) ++ [t0])
     (next_index (thread w)) (last_log (thread w)) n (failed (thread w) ++ l0))))
    as [-> _]. reflexivity.
Qed.

Lemma timer_msgs_not_exit t k :
  ~ In exit_msg (snd (start_timers wall_clock cpu_clock t k)) /\
  ~ In exit_msg (snd (stop_timers wall_clock cpu_clock t k)).
Proof.
  unfold start_timers, stop_timers, exit_msg; simpl.
  split.
  - destruct (start_cpu t =? 0)%N; simpl; intuition discriminate.
  - destruct (stop_cpu t =? 0)%N, (negb (start_cpu t =? 0)%N);
      simpl; intuition discriminate.
Qed.

Lemma failed_enter th :
  exists xs, failed (enter th) = failed th ++ xs /\ ~ In exit_msg xs.
Proof.
  unfold enter_stack_frame.
  destruct (stack th) as [|c rest]; cbn -[start_timers];
    match goal with |- context [start_timers ?a ?b ?t ?k] =>
      pose proof (proj1 (timer_msgs_not_exit t k)) as Hn;
      destruct (start_timers a b t k) as [[fr k'] fs]; simpl in Hn |- *;
      exists fs; split; [reflexivity | exact Hn]
    end.
Qed.

Lemma failed_exit_nonempty w top rest :
  stack (thread w) = top :: rest ->
  exists xs, failed (thread (exit w)) = failed (thread w) ++ xs /\ ~ In exit_msg xs.
Proof.
  intros H. destruct (exit_nonempty w top rest H) as [th' [-> [_ [_ [_ [_ [_ Hf]]]]]]].
  destruct (maybe_flush_same (set_thread w th')) as [_ [_ [_ [_ [_ ->]]]]].
  simpl. rewrite Hf. eexists; split; [reflexivity|]. apply timer_msgs_not_exit.
Qed.

End Effects.

Lemma run_body_fold wc cc (body : list scoped) (w : World) :
  (fix run_body (l : list scoped) (w : World) : World :=
     match l with
     | [] => w
     | s' :: l' => run_body l' (run_scoped wc cc s' w)
     end) body w = fold_left (fun w s => run_scoped wc cc s w) body w.
Proof.
  revert w; induction body as [|s body IH]; intros w; simpl; [reflexivity | apply IH].
Qed.

Section Claims.
Variable wall_clock : nat -> WallTime.
Variable cpu_clock : nat -> CpuTime.

Local Abbreviation enter := (enter_stack_frame wall_clock cpu_clock).
Local Abbreviation exit := (exit_stack_frame wall_clock cpu_clock).

(** C2: entering with a non-empty active list links the new frame under the
    top frame: [caller_index] is the top's index, [prev_index] the top's
    previous [youngest_child_index], and the top's [youngest_child_index]
    becomes the new index; the root frame of a new thread has
    [caller_index = index = 0]. *)
Theorem enter_stack_frame_links :
  (forall th caller rest,
     stack th = caller :: rest ->
     exists fr,
       stack (enter th) =
         fr :: set_youngest_child_index caller (next_index th) :: rest /\
       index fr = next_index th /\
       caller_index fr = index caller /\
       prev_index fr = youngest_child_index caller /\
       youngest_child_index (set_youngest_child_index caller (next_index th))
         = index fr) /\
  (forall p,
     exists root,
       stack (thread (Thread_new wall_clock cpu_clock p)) = [root] /\
       caller_index root = 0 /\ index root = 0).
Proof.
  split.
  - intros th caller rest H. unfold enter_stack_frame. rewrite H.
    eexists. simpl. repeat split.
  - intros p. eexists. simpl. repeat split.
Qed.

(** C7: a guard built while the process is disabled changes nothing, neither
    when it is built nor when it is destroyed. *)
Theorem disabled_scope_timer_noop (w : World) :
  enabled (process w) = false ->
  snd (ScopeTimer_new wall_clock cpu_clock w) = w /\
  scope_enabled (fst (ScopeTimer_new wall_clock cpu_clock w)) = false /\
  (forall w', ScopeTimer_drop wall_clock cpu_clock
                (fst (ScopeTimer_new wall_clock cpu_clock w)) w' = w').
Proof.
  intros H. unfold ScopeTimer_new, ScopeTimer_drop. rewrite H. simpl.
  repeat split.
Qed.

(** C8: [drain_finished] returns the finished frames and empties the buffer;
    a second call returns nothing and leaves the thread as it was. *)
Theorem drain_finished_twice (th : Thread) :
  fst (drain_finished th) = finished th /\
  finished (snd (drain_finished th)) = [] /\
  fst (drain_finished (snd (drain_finished th))) = [] /\
  snd (drain_finished (snd (drain_finished th))) = snd (drain_finished th).
Proof. repeat split. Qed.

Lemma keeps_pairing_trans w1 w2 w3 :
  keeps_pairing w1 w2 -> keeps_pairing w2 w3 -> keeps_pairing w1 w3.
Proof.
  intros [L1 [xs1 [F1 N1]]] [L2 [xs2 [F2 N2]]]. split; [congruence|].
  exists (xs1 ++ xs2). split.
  - rewrite F2, F1. symmetry; apply app_assoc.
  - intros Hin. apply in_app_or in Hin. tauto.
Qed.

Lemma keeps_pairing_refl w : keeps_pairing w w.
Proof. split; [reflexivity|]. exists []. rewrite app_nil_r. split; [reflexivity|]. simpl; tauto. Qed.

Lemma run_scoped_pairing (s : scoped) :
  forall w, keeps_pairing w (run_scoped wall_clock cpu_clock s w).
Proof.
  induction s as [b | body IH] using scoped_ind'; intros w.
  - exact (keeps_pairing_refl w).
  - simpl. rewrite run_body_fold.
    assert (Hbody : forall w0, keeps_pairing w0
              (fold_left (fun w s => run_scoped wall_clock cpu_clock s w) body w0)).
    { clear w. induction IH as [|x l Hx _ IHl]; intros w0; simpl.
      - apply keeps_pairing_refl.
      - eapply keeps_pairing_trans; [apply Hx | apply IHl]. }
    unfold ScopeTimer_new, ScopeTimer_drop. simpl.
    destruct (enabled (process w)) eqn:E.
    + set (w1 := set_thread w (enter (thread w))).
      set (w2 := fold_left _ body w1).
      destruct (Hbody w1) as [L2 [xs2 [F2 N2]]]. fold w2 in L2, F2.
      assert (Hl1 : List.length (stack (thread w1)) = S (List.length (stack (thread w))))
        by apply stack_enter.
      destruct (stack (thread w2)) as [|top rest] eqn:Hs2.
      { simpl in L2. rewrite stack_enter in L2. discriminate. }
      destruct (failed_enter wall_clock cpu_clock (thread w)) as [xs1 [F1 N1]].
      destruct (failed_exit_nonempty wall_clock cpu_clock w2 top rest Hs2) as [xs3 [F3 N3]].
      split.
      * rewrite (stack_exit wall_clock cpu_clock w2 top rest Hs2).
        simpl in L2. rewrite stack_enter in L2. simpl in L2. congruence.
      * exists (xs1 ++ xs2 ++ xs3). split.
        -- rewrite F3, F2. simpl. rewrite F1. now rewrite !app_assoc.
        -- intros Hin. apply in_app_or in Hin as [Hin|Hin]; [tauto|].
           apply in_app_or in Hin; tauto.
    + apply Hbody.
Qed.

(** C10: the guard's destructor consults the flag captured at construction,
    so enter/exit stay paired whatever [set_enabled] does in between: any
    guarded program leaves the stack depth as it found it and never fires
    the "exit called more times than enter" assertion. *)
Theorem scope_timer_exit_paired :
  (forall w w',
     ScopeTimer_drop wall_clock cpu_clock (fst (ScopeTimer_new wall_clock cpu_clock w)) w'
     = if enabled (process w) then exit w' else w') /\
  (forall s w,
     let w' := run_scoped wall_clock cpu_clock s w in
     List.length (stack (thread w')) = List.length (stack (thread w)) /\
     exists xs, failed (thread w') = failed (thread w) ++ xs /\ ~ In exit_msg xs).
Proof.
  split.
  - intros w w'. reflexivity.
  - intros s w. apply run_scoped_pairing.
Qed.

End Claims.

Lemma youngest_below_perm L L' q b :
  Permutation L L' -> youngest_below L q b = youngest_below L' q b.
Proof.
  induction 1 as [| x l l' _ IH | x y l | l l' l'' _ IH1 _ IH2]; simpl.
  - reflexivity.
  - now rewrite IH.
  - destruct ((0 <? l_index x) && (l_index x <? b) && (l_caller x =? q)),
      ((0 <? l_index y) && (l_index y <? b) && (l_caller y =? q)); lia.
  - congruence.
Qed.

Lemma youngest_below_zero_or L q b :
  youngest_below L q b = 0 \/
  exists c, In c L /\ l_index c = youngest_below L q b /\
            0 < l_index c /\ l_index c < b /\ l_caller c = q.
Proof.
  induction L as [|c L IH]; simpl; [now left|].
  destruct ((0 <? l_index c) && (l_index c <? b) && (l_caller c =? q)) eqn:E.
  - apply andb_prop in E as [E E3]. apply andb_prop in E as [E1 E2].
    apply Nat.ltb_lt in E1, E2. apply Nat.eqb_eq in E3.
    destruct IH as [IH | [d [Hd [Hi [H0 [Hb Hq]]]]]].
    + right. exists c. rewrite IH. repeat split; auto; lia.
    + right. destruct (Nat.le_ge_cases (l_index c) (youngest_below L q b)).
      * exists d. rewrite Nat.max_r by lia. auto.
      * exists c. rewrite Nat.max_l by lia. auto.
  - destruct IH as [IH | [d [Hd Hrest]]]; [now left | right; exists d; auto].
Qed.

Lemma youngest_below_max L q b c :
  In c L -> 0 < l_index c -> l_index c < b -> l_caller c = q ->
  l_index c <= youngest_below L q b.
Proof.
  intros Hin H0 Hb Hq. induction L as [|d L IH]; [destruct Hin|]. simpl.
  destruct Hin as [-> | Hin].
  - replace ((0 <? l_index c) && (l_index c <? b) && (l_caller c =? q)) with true.
    + lia.
    + symmetry. apply andb_true_intro; split; [apply andb_true_intro; split|];
        [apply Nat.ltb_lt | apply Nat.ltb_lt | apply Nat.eqb_eq]; auto.
  - specialize (IH Hin).
    destruct (_ && _ && _); lia.
Qed.

Lemma youngest_below_none L q b :
  (forall c, In c L -> 0 < l_index c -> l_index c < b -> l_caller c <> q) ->
  youngest_below L q b = 0.
Proof.
  intros H. destruct (youngest_below_zero_or L q b) as [E | [c [Hc [_ [H0 [Hb Hq]]]]]];
    [exact E|].
  exfalso. exact (H c Hc H0 Hb Hq).
Qed.

Lemma youngest_below_bound L q b b' :
  (forall c, In c L -> l_index c < b) -> b <= b' ->
  youngest_below L q b' = youngest_below L q b.
Proof.
  intros H Hle. induction L as [|c L IH]; simpl; [reflexivity|].
  rewrite IH by (intros; apply H; simpl; auto).
  assert (Hc : l_index c < b) by (apply H; simpl; auto).
  replace (l_index c <? b') with true by (symmetry; apply Nat.ltb_lt; lia).
  replace (l_index c <? b) with true by (symmetry; apply Nat.ltb_lt; lia).
  reflexivity.
Qed.

Lemma youngest_below_same_key L q b c c' :
  l_index c' = l_index c -> l_caller c' = l_caller c ->
  youngest_below (c' :: L) q b = youngest_below (c :: L) q b.
Proof. intros Hi Hc. simpl. now rewrite Hi, Hc. Qed.

Lemma tree_inv_perm n L L' : Permutation L L' -> tree_inv n L -> tree_inv n L'.
Proof.
  intros HP [Hix [Hy [Hc Hr]]].
  assert (HP' : Permutation L' L) by (apply Permutation_sym; exact HP).
  split; [|split; [|split]].
  - eapply Permutation_trans; [|exact Hix]. apply Permutation_map. exact HP'.
  - intros p Hp. rewrite <- (youngest_below_perm _ _ _ _ HP).
    apply Hy. eapply Permutation_in; eauto.
  - intros c Hin H0. rewrite <- (youngest_below_perm _ _ _ _ HP).
    apply Hc; [eapply Permutation_in; eauto | exact H0].
  - intros c Hin. apply Hr. eapply Permutation_in; eauto.
Qed.

Lemma tree_inv_index_lt n L c : tree_inv n L -> In c L -> l_index c < n.
Proof.
  intros [Hix _] Hin. apply (in_map l_index) in Hin.
  apply (Permutation_in _ Hix) in Hin. apply in_seq in Hin. lia.
Qed.

Lemma tree_inv_nodup n L : tree_inv n L -> NoDup (map l_index L).
Proof.
  intros [Hix _]. eapply Permutation_NoDup; [apply Permutation_sym; exact Hix|].
  apply seq_NoDup.
Qed.

Lemma tree_inv_enter n T G :
  tree_inv n (T :: G) ->
  tree_inv (S n) (mkLink n (l_index T) (l_youngest T) 0 ::
                  mkLink (l_index T) (l_caller T) (l_prev T) n :: G).
Proof.
  intros Hinv. pose proof Hinv as [Hix [Hy [Hc Hr]]].
  set (N := mkLink n (l_index T) (l_youngest T) 0).
  set (T' := mkLink (l_index T) (l_caller T) (l_prev T) n).
  assert (Hlt : forall c, In c (T :: G) -> l_index c < n)
    by (intros c; apply tree_inv_index_lt; exact Hinv).
  assert (HTn : l_index T < n) by (apply Hlt; simpl; auto).
  assert (HnT : ~ In (l_index T) (map l_index G)).
  { pose proof (tree_inv_nodup _ _ Hinv) as ND. simpl in ND. inversion ND; auto. }
  assert (Hcall : forall c, In c (T :: G) -> l_caller c < n).
  { intros c Hin. destruct (Nat.eq_dec (l_index c) 0) as [E|E].
    - destruct (Hr c Hin E) as [-> _]. lia.
    - destruct (Hc c Hin) as [H1 _]; [lia|]. specialize (Hlt c Hin). lia. }
  assert (E1 : forall q b, b <= n ->
             youngest_below (N :: T' :: G) q b = youngest_below (T :: G) q b).
  { intros q b Hb. simpl.
    replace (n <? b) with false by (symmetry; apply Nat.ltb_ge; lia).
    rewrite andb_false_r. simpl. reflexivity. }
  assert (E2 : forall q, youngest_below (N :: T' :: G) q (S n) =
                         if q =? l_index T then n else youngest_below (T :: G) q n).
  { intros q.
    assert (Hrest : youngest_below (T' :: G) q (S n) = youngest_below (T :: G) q n).
    { rewrite (youngest_below_same_key G q (S n) T T') by reflexivity.
      apply youngest_below_bound; [exact Hlt | lia]. }
    change (youngest_below (N :: T' :: G) q (S n)) with
      (if (0 <? n) && (n <? S n) && (l_index T =? q)
       then Nat.max n (youngest_below (T' :: G) q (S n))
       else youngest_below (T' :: G) q (S n)).
    rewrite Hrest.
    replace (0 <? n) with true by (symmetry; apply Nat.ltb_lt; lia).
    replace (n <? S n) with true by (symmetry; apply Nat.ltb_lt; lia).
    rewrite Nat.eqb_sym, !andb_true_l.
    destruct (q =? l_index T) eqn:Eq; [|reflexivity].
    apply Nat.max_l.
    destruct (youngest_below_zero_or (T :: G) q n) as [-> | [d [_ [<- [_ [Hd _]]]]]];
      lia. }
  split; [|split; [|split]].
  - rewrite seq_S. simpl.
    eapply Permutation_trans; [apply Permutation_cons_append|].
    apply Permutation_app_tail. exact Hix.
  - intros p [<- | [<- | Hp]].
    + rewrite E2. change (l_index N) with n. change (l_youngest N) with 0.
      replace (n =? l_index T) with false by (symmetry; apply Nat.eqb_neq; lia).
      symmetry. apply youngest_below_none.
      intros c Hin _ _ Hcn. specialize (Hcall c Hin). lia.
    + rewrite E2. change (l_index T') with (l_index T).
      change (l_youngest T') with n. now rewrite Nat.eqb_refl.
    + rewrite E2. rewrite (Hy p (or_intror Hp)).
      replace (l_index p =? l_index T) with false; [reflexivity|].
      symmetry. apply Nat.eqb_neq. intros E. apply HnT. rewrite <- E.
      apply in_map. exact Hp.
  - intros c [<- | [<- | Hp]] H0.
    + change (l_index N) with n. change (l_caller N) with (l_index T).
      change (l_prev N) with (l_youngest T).
      split; [exact HTn|]. rewrite E1 by lia. apply (Hy T). simpl; auto.
    + change (l_index T') with (l_index T) in H0 |- *.
      change (l_caller T') with (l_caller T). change (l_prev T') with (l_prev T).
      destruct (Hc T (or_introl eq_refl) H0) as [Ha Hb].
      split; [exact Ha|]. rewrite E1 by lia. exact Hb.
    + destruct (Hc c (or_intror Hp) H0) as [Ha Hb]. split; [exact Ha|].
      rewrite E1; [exact Hb|]. apply Nat.lt_le_incl, Hlt. simpl; auto.
  - intros c [<- | [<- | Hp]] H0.
    + change (l_index N) with n in H0. lia.
    + apply (Hr T); simpl; auto.
    + apply Hr; simpl; auto.
Qed.

Lemma delivered_app tr e : delivered (tr ++ [e]) = delivered tr ++ ev_frames e.
Proof. unfold delivered. rewrite flat_map_app. simpl. now rewrite app_nil_r. Qed.

Lemma count_stops_app tr e :
  count_stops (tr ++ [e]) = count_stops tr + (if is_stop e then 1 else 0).
Proof. unfold count_stops. rewrite filter_app, length_app. simpl. now destruct (is_stop e). Qed.

Lemma thread_in_situ_frames w :
  Permutation (all_frames (thread_in_situ w)) (all_frames w) /\
  completed (thread_in_situ w) = completed w /\
  count_stops (trace (thread_in_situ w)) = count_stops (trace w).
Proof.
  unfold thread_in_situ, all_frames, completed.
  destruct (callback (process w)); simpl;
    rewrite delivered_app, count_stops_app; simpl; rewrite ?app_nil_r, ?Nat.add_0_r, ?Nat.add_1_r.
  all: repeat split.
  - apply Permutation_refl.
  - apply Permutation_app_head. apply Permutation_app_comm.
Qed.

Lemma thread_stop_frames w :
  Permutation (all_frames (thread_stop w)) (all_frames w) /\
  completed (thread_stop w) = completed w /\
  count_stops (trace (thread_stop w)) = S (count_stops (trace w)).
Proof.
  unfold thread_stop, all_frames, completed.
  destruct (callback (process w)); simpl;
    rewrite delivered_app, count_stops_app; simpl; rewrite ?app_nil_r, ?Nat.add_0_r, ?Nat.add_1_r.
  all: repeat split.
  - apply Permutation_refl.
  - apply Permutation_app_head. apply Permutation_app_comm.
Qed.

Lemma maybe_flush_frames w :
  Permutation (all_frames (maybe_flush w)) (all_frames w) /\
  completed (maybe_flush w) = completed w /\
  count_stops (trace (maybe_flush w)) = count_stops (trace w).
Proof.
  destruct (maybe_flush_cases w) as [-> | ->].
  - repeat split. apply Permutation_refl.
  - apply thread_in_situ_frames.
Qed.

Section Runs.
Variable wc : nat -> WallTime.
Variable cc : nat -> CpuTime.

Local Abbreviation enter := (enter_stack_frame wc cc).
Local Abbreviation exit := (exit_stack_frame wc cc).

Lemma enter_cons th caller rest :
  stack th = caller :: rest ->
  enter th = mkThread
    (mkTimer (next_index th) (index caller) (youngest_child_index caller)
             (wc (ticks th)) (cc (S (ticks th))) 0%N 0%N 0
     :: set_youngest_child_index caller (next_index th) :: rest)
    (finished th) (index_incr (next_index th)) (last_log th) (S (S (ticks th))) (failed th).
Proof. intros H. unfold enter_stack_frame. rewrite H. simpl. now rewrite app_nil_r. Qed.

Lemma finished_enter th : finished (enter th) = finished th.
Proof. unfold enter_stack_frame. destruct (stack th); reflexivity. Qed.

Lemma ticks_enter th : ticks (enter th) = S (S (ticks th)).
Proof. unfold enter_stack_frame. destruct (stack th); reflexivity. Qed.

Lemma enter_all_frames w caller rest :
  stack (thread w) = caller :: rest ->
  all_frames (set_thread w (enter (thread w))) =
    mkTimer (next_index (thread w)) (index caller) (youngest_child_index caller)
            (wc (ticks (thread w))) (cc (S (ticks (thread w)))) 0%N 0%N 0
    :: set_youngest_child_index caller (next_index (thread w))
    :: rest ++ finished (thread w) ++ delivered (trace w).
Proof.
  intros H. unfold all_frames, set_thread. cbn [thread trace].
  rewrite (enter_cons _ _ _ H). reflexivity.
Qed.

Lemma enter_completed w : completed (set_thread w (enter (thread w))) = completed w.
Proof. unfold completed, set_thread. cbn [thread trace]. now rewrite finished_enter. Qed.

Lemma exit_cons w top rest :
  stack (thread w) = top :: rest ->
  let k := ticks (thread w) in
  let top' := fst (fst (stop_timers wc cc top k)) in
  stack (thread (exit w)) = rest /\
  next_index (thread (exit w)) = next_index (thread w) /\
  ticks (thread (exit w)) = S (S k) /\
  failed (thread (exit w)) = failed (thread w) ++ snd (stop_timers wc cc top k) /\
  process (exit w) = process w /\
  Permutation (all_frames (exit w)) (top' :: rest ++ finished (thread w) ++ delivered (trace w)) /\
  completed (exit w) = completed w ++ [top'] /\
  count_stops (trace (exit w)) = count_stops (trace w).
Proof.
  intros H. cbv zeta.
  destruct (exit_nonempty wc cc w top rest H) as [th' [-> [Hs [Hf [Hn [_ [Ht Hfl]]]]]]].
  destruct (maybe_flush_same (set_thread w th')) as [Hp [Hs' [Hn' [_ [Ht' Hf']]]]].
  destruct (maybe_flush_frames (set_thread w th')) as [Hperm [Hc Hcs]].
  rewrite Hs', Hn', Ht', Hf', Hp, Hc, Hcs.
  unfold set_thread in *. cbn [thread process trace] in *.
  split; [exact Hs|]. split; [exact Hn|]. split; [exact Ht|]. split; [exact Hfl|].
  split; [reflexivity|]. split; [|split; [|reflexivity]].
  - eapply Permutation_trans; [exact Hperm|]. unfold all_frames. cbn [thread trace].
    rewrite Hs, Hf. apply Permutation_sym.
    rewrite <- (app_assoc (finished (thread w))).
    rewrite (app_assoc rest (finished (thread w)) ([_] ++ _)).
    apply Permutation_cons_app. now rewrite app_assoc.
  - unfold completed. cbn [thread trace]. rewrite Hf. now rewrite app_assoc.
Qed.

Lemma next_index_exit w : next_index (thread (exit w)) = next_index (thread w).
Proof.
  destruct (stack (thread w)) as [|top rest] eqn:H.
  - unfold exit_stack_frame. rewrite H. reflexivity.
  - apply (exit_cons w top rest H).
Qed.

Lemma run_ops_process w os : process (run_ops wc cc w os) = process w.
Proof.
  unfold run_ops. revert w; induction os as [|o os IH]; intros w; simpl; [reflexivity|].
  rewrite IH. destruct o; simpl; [reflexivity | apply exit_keeps_process].
Qed.

Lemma run_ops_next_index w os :
  (N.of_nat (next_index (thread w) + count_enters os) <= size_max)%N ->
  next_index (thread (run_ops wc cc w os)) = next_index (thread w) + count_enters os.
Proof.
  unfold run_ops, count_enters. revert w; induction os as [|o os IH]; intros w Hb.
  - simpl. lia.
  - change (fold_left (step wc cc) (o :: os) w) with (fold_left (step wc cc) os (step wc cc w o)).
    destruct o.
    + assert (E : next_index (thread (step wc cc w Enter)) = S (next_index (thread w))).
      { change (step wc cc w Enter) with (set_thread w (enter (thread w))).
        unfold set_thread. cbn [thread]. rewrite next_index_enter.
        apply index_incr_small. simpl in Hb. lia. }
      rewrite IH; rewrite E; simpl in Hb |- *; lia.
    + assert (E : next_index (thread (step wc cc w Exit)) = next_index (thread w))
        by apply next_index_exit.
      rewrite IH; rewrite E; simpl in Hb |- *; lia.
Qed.

(** Every enter adds one frame; an exit moves one. *)
Lemma run_ops_all_frames os : forall d d' w,
  close_depth d os = Some d' -> List.length (stack (thread w)) = S d ->
  List.length (all_frames (run_ops wc cc w os)) = List.length (all_frames w) + count_enters os.
Proof.
  unfold run_ops, count_enters.
  induction os as [|o os IH]; intros d d' w Hc Hl; simpl in Hc |- *; [lia|].
  destruct (stack (thread w)) as [|top rest] eqn:Hs; [simpl in Hl; discriminate|].
  destruct o; simpl.
  - rewrite (IH (S d) d'); [|exact Hc|].
    + rewrite (enter_all_frames w top rest Hs). unfold all_frames. rewrite Hs. simpl. lia.
    + unfold set_thread. cbn [thread]. rewrite stack_enter, Hs. simpl in Hl |- *. lia.
  - destruct d as [|d]; [discriminate|].
    rewrite (IH d d'); [|exact Hc|].
    + destruct (exit_cons w top rest Hs) as [_ [_ [_ [_ [_ [Hp _]]]]]].
      rewrite (Permutation_length Hp). unfold all_frames. rewrite Hs. simpl. lia.
    + rewrite (stack_exit wc cc w top rest Hs). simpl in Hl. lia.
Qed.

Lemma run_ops_inv (Q : World -> Prop) :
  (forall w caller rest, Q w -> stack (thread w) = caller :: rest ->
     Q (set_thread w (enter (thread w)))) ->
  (forall w top rest, Q w -> stack (thread w) = top :: rest -> Q (exit w)) ->
  forall os d d' w, close_depth d os = Some d' ->
    List.length (stack (thread w)) = S d -> Q w ->
    Q (run_ops wc cc w os) /\ List.length (stack (thread (run_ops wc cc w os))) = S d'.
Proof.
  intros HE HX os. unfold run_ops.
  induction os as [|o os IH]; intros d d' w Hc Hl Hq; simpl in Hc.
  - injection Hc as <-. auto.
  - change (fold_left (step wc cc) (o :: os) w) with (fold_left (step wc cc) os (step wc cc w o)).
    destruct o.
    + change (step wc cc w Enter) with (set_thread w (enter (thread w))).
      destruct (stack (thread w)) as [|caller rest] eqn:Hs; [simpl in Hl; discriminate|].
      apply (IH (S d)); [exact Hc| |eapply HE; eauto].
      unfold set_thread. cbn [thread]. rewrite stack_enter, Hs. simpl in Hl |- *. lia.
    + change (step wc cc w Exit) with (exit w).
      destruct d as [|d]; [discriminate|].
      destruct (stack (thread w)) as [|top rest] eqn:Hs; [simpl in Hl; discriminate|].
      apply (IH d); [exact Hc| |eapply HX; eauto].
      rewrite (stack_exit wc cc w top rest Hs). simpl in Hl. lia.
Qed.

(** The same, for invariants an enter keeps only while the index counter
    does not wrap. *)
Lemma run_ops_inv_bounded (Q : World -> Prop) :
  (forall w caller rest, Q w -> stack (thread w) = caller :: rest ->
     (N.of_nat (next_index (thread w)) < size_max)%N ->
     Q (set_thread w (enter (thread w)))) ->
  (forall w top rest, Q w -> stack (thread w) = top :: rest -> Q (exit w)) ->
  forall os d d' w, close_depth d os = Some d' ->
    List.length (stack (thread w)) = S d ->
    (N.of_nat (next_index (thread w) + count_enters os) <= size_max)%N -> Q w ->
    Q (run_ops wc cc w os) /\ List.length (stack (thread (run_ops wc cc w os))) = S d'.
Proof.
  intros HE HX os. unfold run_ops, count_enters.
  induction os as [|o os IH]; intros d d' w Hc Hl Hb Hq; simpl in Hc, Hb.
  - injection Hc as <-. auto.
  - change (fold_left (step wc cc) (o :: os) w) with (fold_left (step wc cc) os (step wc cc w o)).
    destruct o; simpl in Hb.
    + change (step wc cc w Enter) with (set_thread w (enter (thread w))).
      destruct (stack (thread w)) as [|caller rest] eqn:Hs; [simpl in Hl; discriminate|].
      apply (IH (S d)); [exact Hc| | |eapply HE; eauto; lia].
      * unfold set_thread. cbn [thread]. rewrite stack_enter, Hs. simpl in Hl |- *. lia.
      * unfold set_thread. cbn [thread]. rewrite next_index_enter, index_incr_small by lia. lia.
    + change (step wc cc w Exit) with (exit w).
      destruct d as [|d]; [discriminate|].
      destruct (stack (thread w)) as [|top rest] eqn:Hs; [simpl in Hl; discriminate|].
      apply (IH d); [exact Hc| | |eapply HX; eauto].
      * rewrite (stack_exit wc cc w top rest Hs). simpl in Hl. lia.
      * rewrite next_index_exit. exact Hb.
Qed.

Lemma run_depth p os d :
  close_depth 0 os = Some d ->
  List.length (stack (thread (run_ops wc cc (Thread_new wc cc p) os))) = S d.
Proof.
  intros Hc. apply (run_ops_inv (fun _ => True)) with (d := 0); auto.
Qed.

Lemma drop_single w r :
  stack (thread w) = [r] -> Thread_drop wc cc w = thread_stop (exit w).
Proof.
  intros H. unfold Thread_drop. rewrite (stack_exit wc cc w r [] H). reflexivity.
Qed.

Lemma thread_stop_store w :
  callback (process w) = StoreCallback ->
  finished (thread (thread_stop w)) = [] /\
  delivered (trace (thread_stop w)) = delivered (trace w) ++ finished (thread w).
Proof.
  intros H. unfold thread_stop. rewrite H. simpl. split; [reflexivity|].
  now rewrite delivered_app.
Qed.

Lemma tree_inv_root : tree_inv 1 [mkLink 0 0 0 0].
Proof.
  split; [simpl; apply Permutation_refl|]. split; [|split].
  - intros p [<- | []]. reflexivity.
  - intros c [<- | []] H. simpl in H. lia.
  - intros c [<- | []] _. simpl. auto.
Qed.

Lemma frames_inv_new p : frames_inv (Thread_new wc cc p).
Proof. exact tree_inv_root. Qed.

Lemma frames_inv_enter w caller rest :
  frames_inv w -> stack (thread w) = caller :: rest ->
  (N.of_nat (next_index (thread w)) < size_max)%N ->
  frames_inv (set_thread w (enter (thread w))).
Proof.
  unfold frames_inv. intros Hi Hs Hb. rewrite (enter_all_frames w caller rest Hs).
  unfold set_thread. cbn [thread]. rewrite next_index_enter, index_incr_small by exact Hb.
  unfold all_frames in Hi. rewrite Hs in Hi.
  exact (tree_inv_enter _ _ _ Hi).
Qed.

Lemma frames_inv_exit w top rest :
  frames_inv w -> stack (thread w) = top :: rest -> frames_inv (exit w).
Proof.
  intros Hi Hs. destruct (exit_cons w top rest Hs) as [_ [Hn [_ [_ [_ [Hp _]]]]]].
  unfold frames_inv in *. rewrite Hn.
  apply (tree_inv_perm _ (map links (all_frames w))); [|exact Hi].
  assert (E : map links (all_frames w) =
              map links (fst (fst (stop_timers wc cc top (ticks (thread w))))
                         :: rest ++ finished (thread w) ++ delivered (trace w)))
    by (unfold all_frames; rewrite Hs; reflexivity).
  rewrite E. apply Permutation_map, Permutation_sym, Hp.
Qed.

Lemma frames_inv_stop w : frames_inv w -> frames_inv (thread_stop w).
Proof.
  unfold frames_inv. intros Hi.
  destruct (thread_stop_same w) as [_ [_ [Hn _]]].
  destruct (thread_stop_frames w) as [Hp _]. rewrite Hn.
  apply (tree_inv_perm _ (map links (all_frames w))); [|exact Hi].
  apply Permutation_map, Permutation_sym, Hp.
Qed.

Lemma next_index_new p : next_index (thread (Thread_new wc cc p)) = 1.
Proof. reflexivity. Qed.

Lemma run_frames p os d :
  close_depth 0 os = Some d ->
  (N.of_nat (count_enters os) < size_max)%N ->
  let w := run_ops wc cc (Thread_new wc cc p) os in
  frames_inv w /\ count_stops (trace w) = 0 /\ process w = p /\
  next_index (thread w) = S (count_enters os) /\
  List.length (stack (thread w)) = S d.
Proof.
  intros Hc Hb w.
  destruct (run_ops_inv_bounded (fun w => frames_inv w /\ count_stops (trace w) = 0))
    with (os := os) (d := 0) (d' := d) (w := Thread_new wc cc p)
    as [[Hi Hs] Hl]; auto.
  - intros w0 caller rest [Hi Hs] H Hb0. split; [eapply frames_inv_enter; eauto | exact Hs].
  - intros w0 top rest [Hi Hs] H. split; [eapply frames_inv_exit; eauto|].
    destruct (exit_cons w0 top rest H) as [_ [_ [_ [_ [_ [_ [_ Hcs]]]]]]]. congruence.
  - rewrite next_index_new. lia.
  - split; [apply frames_inv_new | reflexivity].
  - split; [exact Hi|]. split; [exact Hs|].
    split; [unfold w; rewrite run_ops_process; reflexivity|].
    split; [unfold w; rewrite run_ops_next_index; rewrite next_index_new; [reflexivity|lia]
           | exact Hl].
Qed.

(** A balanced run torn down: the facts shared by the teardown claims. *)
Lemma drop_run p os :
  balanced os = true ->
  let w := run_ops wc cc (Thread_new wc cc p) os in
  exists r, stack (thread w) = [r] /\ Thread_drop wc cc w = thread_stop (exit w).
Proof.
  intros Hb w. unfold balanced in Hb.
  destruct (close_depth 0 os) as [[|d]|] eqn:Hc; try discriminate.
  pose proof (run_depth p os 0 Hc) as Hl. fold w in Hl.
  destruct (stack (thread w)) as [|r [|r' rest]] eqn:Hs; simpl in Hl; try discriminate.
  exists r. split; [reflexivity | exact (drop_single w r Hs)].
Qed.

(** The same, with the call-tree invariant, while the index counter does
    not wrap. *)
Lemma drop_run_frames p os :
  balanced os = true -> (N.of_nat (count_enters os) < size_max)%N ->
  let w := run_ops wc cc (Thread_new wc cc p) os in
  exists r, stack (thread w) = [r] /\
    Thread_drop wc cc w = thread_stop (exit w) /\
    frames_inv (exit w) /\ count_stops (trace (exit w)) = 0 /\
    process (exit w) = p /\ stack (thread (exit w)) = [] /\
    next_index (thread (exit w)) = S (count_enters os).
Proof.
  intros Hb Hbd w. unfold balanced in Hb.
  destruct (close_depth 0 os) as [[|d]|] eqn:Hc; try discriminate.
  destruct (run_frames p os 0 Hc Hbd) as [Hi [Hcs [Hp [Hn Hl]]]]. fold w in Hi, Hcs, Hp, Hn, Hl.
  destruct (stack (thread w)) as [|r [|r' rest]] eqn:Hs; simpl in Hl; try discriminate.
  exists r. split; [reflexivity|]. split; [exact (drop_single w r Hs)|].
  destruct (exit_cons w r [] Hs) as [Hs1 [Hn1 [_ [_ [Hp1 [_ [_ Hcs1]]]]]]].
  split; [exact (frames_inv_exit w r [] Hi Hs)|].
  repeat split; congruence.
Qed.

Lemma store_drop_delivered p os :
  balanced os = true -> callback p = StoreCallback ->
  (N.of_nat (count_enters os) < size_max)%N ->
  let w' := Thread_drop wc cc (run_ops wc cc (Thread_new wc cc p) os) in
  stack (thread w') = [] /\ finished (thread w') = [] /\
  all_frames w' = delivered (trace w') /\ completed w' = delivered (trace w') /\
  Permutation (map index (delivered (trace w'))) (seq 0 (S (count_enters os))) /\
  count_stops (trace w') = 1.
Proof.
  intros Hb Hcb Hbd w'.
  destruct (drop_run_frames p os Hb Hbd) as [r [_ [Hd [Hi [Hcs [Hp [Hs Hn]]]]]]].
  fold w' in Hd. set (w1 := exit_stack_frame wc cc (run_ops wc cc (Thread_new wc cc p) os)) in *.
  destruct (thread_stop_same w1) as [Hp2 [Hs2 [Hn2 _]]].
  destruct (thread_stop_frames w1) as [_ [_ Hcs2]].
  destruct (thread_stop_store w1) as [Hf2 _]; [congruence|].
  pose proof (frames_inv_stop w1 Hi) as Hi2.
  rewrite Hd. rewrite Hs in Hs2.
  assert (Ha : all_frames (thread_stop w1) = delivered (trace (thread_stop w1)))
    by (unfold all_frames; rewrite Hs2, Hf2; reflexivity).
  split; [exact Hs2|]. split; [exact Hf2|]. split; [exact Ha|].
  split; [unfold completed; rewrite Hf2; apply app_nil_r|].
  split; [|lia].
  destruct Hi2 as [Hix _]. rewrite map_map in Hix. cbn [l_index links] in Hix.
  rewrite Ha, Hn2, Hn in Hix. exact Hix.
Qed.

End Runs.

Lemma chain_below F n q :
  tree_inv n (map links F) ->
  forall b, b <= n ->
  exists l, prev_chain F (youngest_below (map links F) q b) l /\ NoDup l /\
    (forall j, In j l <->
       exists c, In c F /\ index c = j /\ 0 < j /\ j < b /\ caller_index c = q).
Proof.
  intros Hinv b. induction b as [b IH] using (well_founded_induction lt_wf). intros Hb.
  set (L := map links F) in *.
  destruct (youngest_below_zero_or L q b) as [E | [c [Hc [Hy [H0 [Hcb Hq]]]]]].
  - rewrite E. exists []. split; [constructor|]. split; [constructor|].
    intros j. split; [intros []|]. intros [c [Hc [<- [H0 [Hjb Hq]]]]].
    pose proof (youngest_below_max L q b (links c) (in_map links F c Hc) H0 Hjb Hq) as Hm.
    fold L in Hm. cbn [l_index links] in Hm. lia.
  - apply in_map_iff in Hc as [t [<- Ht]].
    cbn [l_index l_caller links] in Hy, H0, Hcb, Hq.
    destruct Hinv as [_ [_ [Hcl _]]].
    destruct (Hcl (links t) (in_map links F t Ht) H0) as [_ Hprev].
    cbn [l_index l_caller l_prev links] in Hprev. rewrite Hq in Hprev.
    destruct (IH (index t) Hcb) as [l [Hl [Hnd Hiff]]]; [lia|].
    fold L in Hprev. rewrite <- Hprev in Hl.
    exists (index t :: l). rewrite <- Hy. split; [apply prev_chain_step; auto; lia|].
    split.
    + constructor; [|exact Hnd]. intros Hin. apply Hiff in Hin as [? [_ [_ [_ [Hlt _]]]]]. lia.
    + intros j. split.
      * intros [<- | Hin]; [exists t; auto|].
        apply Hiff in Hin as [c [Hc [Hj [Hj0 [Hjt Hcq]]]]]. exists c. repeat split; auto; lia.
      * intros [c [Hc [Hj [Hj0 [Hjb Hcq]]]]].
        pose proof (youngest_below_max L q b (links c) (in_map links F c Hc)) as Hm.
        cbn [l_index l_caller links] in Hm. specialize (Hm ltac:(lia) ltac:(lia) Hcq).
        fold L in Hm. rewrite <- Hy in Hm.
        destruct (Nat.eq_dec j (index t)) as [-> | Hne]; [left; reflexivity|].
        right. apply Hiff. exists c. repeat split; auto; lia.
Qed.

Lemma StronglySorted_snoc {A} (R : A -> A -> Prop) l x :
  StronglySorted R l -> (forall a, In a l -> R a x) -> StronglySorted R (l ++ [x]).
Proof.
  induction 1 as [|a l Hs IH Hf]; intros H; simpl.
  - repeat constructor.
  - constructor.
    + apply IH. intros b Hb. apply H. simpl; auto.
    + apply Forall_app. split; [exact Hf|]. constructor; [apply H; simpl; auto | constructor].
Qed.

Section Timing.
Variable R : N -> N -> Prop.
Variable wc : nat -> WallTime.
Variable cc : nat -> CpuTime.
Hypothesis R_trans : forall a b c, R a b -> R b c -> R a c.
Hypothesis wall_step : forall k, R (wc k) (wc (S k)).
Hypothesis cpu_step : forall k, R (cc k) (cc (S k)).

Local Abbreviation enter := (enter_stack_frame wc cc).
Local Abbreviation exit := (exit_stack_frame wc cc).

Lemma clock_up (c : nat -> N) :
  (forall k, R (c k) (c (S k))) -> forall k k', k < k' -> R (c k) (c k').
Proof.
  intros Hc k k' Hlt. induction Hlt as [|k' _ IH]; [apply Hc|].
  eapply R_trans; [exact IH | apply Hc].
Qed.

Lemma start_ok_perm n k M M' :
  Permutation M M' -> start_ok R wc cc n k M -> start_ok R wc cc n k M'.
Proof.
  intros HP [H1 H2]. split.
  - intros i sw sc Hin. apply H1. eapply Permutation_in; [apply Permutation_sym, HP | exact Hin].
  - intros i sw sc j sw' sc' Hi Hj. apply H2;
      (eapply Permutation_in; [apply Permutation_sym, HP | assumption]).
Qed.

Lemma start_ok_later n k M :
  start_ok R wc cc n k M -> start_ok R wc cc n (S (S k)) M.
Proof.
  intros [H1 H2]. split; [|exact H2].
  intros i sw sc Hin. destruct (H1 i sw sc Hin) as [Hn [Hw Hc]].
  split; [exact Hn|]. split.
  - eapply R_trans; [exact Hw | apply clock_up; auto].
  - eapply R_trans; [exact Hc | apply clock_up; auto].
Qed.

Lemma start_ok_enter n k M :
  start_ok R wc cc n k M ->
  start_ok R wc cc (S n) (S (S k)) ((n, wc k, cc (S k)) :: M).
Proof.
  intros HM. pose proof (start_ok_later n k M HM) as [L1 _]. destruct HM as [H1 H2].
  split.
  - intros i sw sc [E | Hin].
    + injection E as <- <- <-. split; [lia|]. split; apply clock_up; auto.
    + destruct (L1 i sw sc Hin) as [Hn Hr]. split; [lia | exact Hr].
  - intros i sw sc j sw' sc' [Ei | Hi] [Ej | Hj] Hlt.
    + injection Ei as <- <- <-. injection Ej as <- <- <-. lia.
    + injection Ei as <- <- <-. destruct (H1 j sw' sc' Hj) as [Hn _]. lia.
    + injection Ej as <- <- <-. destruct (H1 i sw sc Hi) as [_ [Hw Hc]].
      split; [exact Hw|]. eapply R_trans; [exact Hc | apply cpu_step].
    + apply (H2 i sw sc j sw' sc'); auto.
Qed.

Lemma time_inv_enter w caller rest :
  time_inv R wc cc w -> stack (thread w) = caller :: rest ->
  (N.of_nat (next_index (thread w)) < size_max)%N ->
  time_inv R wc cc (set_thread w (enter (thread w))).
Proof.
  intros [HS [HC HO]] Hs Hb. unfold time_inv.
  rewrite enter_completed.
  replace (ticks (thread (set_thread w (enter (thread w))))) with (S (S (ticks (thread w))))
    by (symmetry; apply ticks_enter).
  replace (next_index (thread (set_thread w (enter (thread w)))))
    with (S (next_index (thread w)))
    by (symmetry; exact (eq_trans (next_index_enter wc cc (thread w)) (index_incr_small _ Hb))).
  split; [|split; [|exact HO]].
  - rewrite (enter_all_frames wc cc w caller rest Hs).
    unfold all_frames in HS. rewrite Hs in HS.
    exact (start_ok_enter _ _ _ HS).
  - intros f Hf. destruct (HC f Hf) as [Hw Hc]. split.
    + eapply R_trans; [exact Hw | apply clock_up; auto].
    + eapply R_trans; [exact Hc | apply clock_up; auto].
Qed.

Lemma time_inv_exit w top rest :
  time_inv R wc cc w -> stack (thread w) = top :: rest -> time_inv R wc cc (exit w).
Proof.
  intros [HS [HC HO]] Hs. unfold time_inv.
  destruct (exit_cons wc cc w top rest Hs) as [_ [Hn [Ht [_ [_ [Hp [Hc _]]]]]]].
  rewrite Hn, Ht, Hc.
  set (k := ticks (thread w)) in *.
  set (top' := fst (fst (stop_timers wc cc top k))) in *.
  split; [|split].
  - apply (start_ok_perm _ _ (map start_key (all_frames w))).
    + assert (E : map start_key (all_frames w) =
                  map start_key (top' :: rest ++ finished (thread w) ++ delivered (trace w)))
        by (unfold all_frames; rewrite Hs; reflexivity).
      rewrite E. apply Permutation_map, Permutation_sym, Hp.
    + apply start_ok_later. exact HS.
  - intros f Hf. apply in_app_or in Hf as [Hf | [<- | []]].
    + destruct (HC f Hf) as [Hw Hc']. split.
      * eapply R_trans; [exact Hw | apply clock_up; auto].
      * eapply R_trans; [exact Hc' | apply clock_up; auto].
    + split; apply clock_up; auto.
  - apply StronglySorted_snoc; [exact HO|]. intros a Ha.
    destruct (HC a Ha) as [Hw Hc']. split; [exact Hw|].
    eapply R_trans; [exact Hc' | apply cpu_step].
Qed.

Lemma time_inv_stop w : time_inv R wc cc w -> time_inv R wc cc (thread_stop w).
Proof.
  intros [HS [HC HO]]. unfold time_inv.
  destruct (thread_stop_same w) as [_ [_ [Hn [_ [Ht _]]]]].
  destruct (thread_stop_frames w) as [Hp [Hc _]].
  rewrite Hn, Ht, Hc. split; [|split; assumption].
  apply (start_ok_perm _ _ (map start_key (all_frames w))); [|exact HS].
  apply Permutation_map, Permutation_sym, Hp.
Qed.

Lemma time_inv_new p : time_inv R wc cc (Thread_new wc cc p).
Proof.
  unfold time_inv. cbv zeta. rewrite (next_index_new wc cc p). simpl. split; [split|split].
  - intros i sw sc [E | []]. injection E as <- <- <-.
    split; [lia|]. split; apply clock_up; auto.
  - intros i sw sc j sw' sc' [Ei | []] [Ej | []] Hlt.
    injection Ei as <- <- <-. injection Ej as <- <- <-. lia.
  - intros f [].
  - constructor.
Qed.

Lemma time_run p os :
  balanced os = true -> (N.of_nat (count_enters os) < size_max)%N ->
  time_inv R wc cc (Thread_drop wc cc (run_ops wc cc (Thread_new wc cc p) os)).
Proof.
  intros Hb Hbd. destruct (drop_run wc cc p os Hb) as [r [Hs Hd]].
  rewrite Hd. apply time_inv_stop. eapply time_inv_exit; [|exact Hs].
  unfold balanced in Hb.
  destruct (close_depth 0 os) as [[|d]|] eqn:Hc; try discriminate.
  apply (run_ops_inv_bounded wc cc (time_inv R wc cc)) with (d := 0) (d' := 0); auto.
  - intros w0 caller rest Hi H Hb0. eapply time_inv_enter; eauto.
  - intros w0 top rest Hi H. eapply time_inv_exit; eauto.
  - rewrite next_index_new. lia.
  - apply time_inv_new.
Qed.

End Timing.

Section Assertions.
Variable wc : nat -> WallTime.
Variable cc : nat -> CpuTime.
Hypothesis cpu_nonzero : forall k, cc k <> 0%N.

Local Abbreviation enter := (enter_stack_frame wc cc).
Local Abbreviation exit := (exit_stack_frame wc cc).

Lemma clean_enter w caller rest :
  clean_inv w -> stack (thread w) = caller :: rest ->
  clean_inv (set_thread w (enter (thread w))).
Proof.
  intros [Hf Hs] H. unfold clean_inv, set_thread. cbn [thread].
  rewrite (enter_cons wc cc _ _ _ H). cbn [failed stack]. split; [exact Hf|].
  intros f [<- | [<- | Hin]].
  - split; [reflexivity | apply cpu_nonzero].
  - apply (Hs caller). rewrite H. simpl; auto.
  - apply Hs. rewrite H. simpl; auto.
Qed.

Lemma clean_exit w top rest :
  clean_inv w -> stack (thread w) = top :: rest -> clean_inv (exit w).
Proof.
  intros [Hf Hs] H.
  destruct (exit_cons wc cc w top rest H) as [Hs1 [_ [_ [Hf1 _]]]].
  destruct (Hs top) as [Hstop Hstart]; [rewrite H; simpl; auto|].
  unfold clean_inv. rewrite Hs1, Hf1, Hf. split.
  - unfold stop_timers. simpl. rewrite Hstop. simpl.
    destruct (start_cpu top =? 0)%N eqn:E; [apply N.eqb_eq in E; contradiction | reflexivity].
  - intros f Hin. apply Hs. rewrite H. simpl; auto.
Qed.

Lemma clean_new p : clean_inv (Thread_new wc cc p).
Proof.
  split; [reflexivity|]. intros f [<- | []]. split; [reflexivity | apply cpu_nonzero].
Qed.

Lemma clean_run p os d :
  close_depth 0 os = Some d -> clean_inv (run_ops wc cc (Thread_new wc cc p) os).
Proof.
  intros Hc.
  apply (run_ops_inv wc cc clean_inv) with (d := 0) (d' := d); auto.
  - intros w0 caller rest Hi H. eapply clean_enter; eauto.
  - intros w0 top rest Hi H. eapply clean_exit; eauto.
  - apply clean_new.
Qed.

End Assertions.

Lemma thread_stop_event w :
  exists b, trace (thread_stop w) = trace w ++ [ev_thread_stop b].
Proof. unfold thread_stop. destruct (callback (process w)); simpl; eexists; reflexivity. Qed.

Lemma last_snoc {A} (l : list A) (a d : A) : last (l ++ [a]) d = a.
Proof. induction l as [|x l IH]; [reflexivity|]. simpl. rewrite IH. destruct (l ++ [a]) eqn:E; [destruct l; discriminate | reflexivity]. Qed.

Lemma prev_chain_inv F i l :
  prev_chain F i l ->
  (i = 0 /\ l = []) \/
  exists t l', i = index t /\ index t <> 0 /\ In t F /\ prev_chain F (prev_index t) l' /\
               l = index t :: l'.
Proof. destruct 1 as [|t l Ht Hin Hl]; [left | right; exists t, l]; auto. Qed.

(** ** The claims *)

(** C1: for any callback period, on a balanced run torn down by the thread's
    destructor with the draining consumer, the frames handed to the in-situ
    and stop hooks are exactly the frames entered (indices [0..n-1], each
    once), the stop hook runs exactly once, as the last hook, and nothing is
    left in the thread.  Frames are told apart by their [size_t] index, so
    the run enters fewer than [size_max] = 2^64 - 1 frames above the root:
    the index counter does not wrap. *)
Theorem no_frame_lost (wc : nat -> WallTime) (cc : nat -> CpuTime) (p : Process) (os : list op) :
  balanced os = true -> callback p = StoreCallback ->
  (N.of_nat (count_enters os) < size_max)%N ->
  let w := Thread_drop wc cc (run_ops wc cc (Thread_new wc cc p) os) in
  Permutation (map index (delivered (trace w))) (seq 0 (S (count_enters os))) /\
  count_stops (trace w) = 1 /\
  (exists tr b, trace w = tr ++ [ev_thread_stop b]) /\
  stack (thread w) = [] /\ finished (thread w) = [].
Proof.
  intros Hb Hcb Hbd w.
  destruct (store_drop_delivered wc cc p os Hb Hcb Hbd) as [Hs [Hf [_ [_ [Hp Hc]]]]].
  fold w in Hs, Hf, Hp, Hc.
  split; [exact Hp|]. split; [exact Hc|]. split; [|split; assumption].
  destruct (drop_run wc cc p os Hb) as [r [_ Hd]]. unfold w. rewrite Hd.
  destruct (thread_stop_event (exit_stack_frame wc cc (run_ops wc cc (Thread_new wc cc p) os)))
    as [b E].
  rewrite E. eexists; eexists; reflexivity.
Qed.

(** C3 (amended): after a properly nested run, frame indices are distinct;
    the root (index 0) has [caller_index = prev_index = 0]; every non-root
    frame has [caller_index < index]; and for every frame [P], the walk from
    [youngest_child_index P] along [prev_index] (ending at index 0) visits
    exactly the indices of the non-root frames called by [P], each once.
    The run enters fewer than [size_max] = 2^64 - 1 frames above the root,
    so the [size_t] index counter does not wrap. *)
Theorem call_tree_links (wc : nat -> WallTime) (cc : nat -> CpuTime) (p : Process) (os : list op) :
  properly_nested os = true -> (N.of_nat (count_enters os) < size_max)%N ->
  let F := all_frames (run_ops wc cc (Thread_new wc cc p) os) in
  NoDup (map index F) /\
  (forall c, In c F -> index c = 0 -> caller_index c = 0 /\ prev_index c = 0) /\
  (forall c, In c F -> 0 < index c -> caller_index c < index c) /\
  (forall P, In P F ->
     exists l, prev_chain F (youngest_child_index P) l /\ NoDup l /\
       (forall j, In j l <->
          exists c, In c F /\ index c = j /\ 0 < j /\ caller_index c = index P)).
Proof.
  intros Hpn Hbd F. unfold properly_nested in Hpn.
  destruct (close_depth 0 os) as [d|] eqn:Hc; [|discriminate].
  destruct (run_frames wc cc p os d Hc Hbd) as [Hi _]. fold F in Hi. unfold frames_inv in Hi.
  set (n := next_index (thread (run_ops wc cc (Thread_new wc cc p) os))) in Hi.
  pose proof Hi as [Hix [Hy [Hcl Hr]]].
  split; [|split; [|split]].
  - pose proof (tree_inv_nodup _ _ Hi) as ND. rewrite map_map in ND. exact ND.
  - intros c Hin H0. exact (Hr (links c) (in_map links F c Hin) H0).
  - intros c Hin H0. exact (proj1 (Hcl (links c) (in_map links F c Hin) H0)).
  - intros P HP. change (youngest_child_index P) with (l_youngest (links P)).
    rewrite (Hy (links P) (in_map links F P HP)). cbn [l_index links].
    destruct (chain_below F n (index P) Hi n (le_n n)) as [l [Hl [Hnd Hiff]]].
    exists l. split; [exact Hl|]. split; [exact Hnd|].
    intros j. rewrite Hiff. split.
    + intros [c [? [? [? [_ ?]]]]]. exists c. auto.
    + intros [c [Hin [Hj [H0 Hq]]]]. exists c. repeat split; auto.
      rewrite <- Hj. exact (tree_inv_index_lt _ _ (links c) Hi (in_map links F c Hin)).
Qed.

(** C3, counterexample: the root calls itself ([caller_index = index = 0])
    but the walk from its [youngest_child_index] never reaches it. *)
Lemma call_tree_root_cex :
  let F := all_frames (run_ops ticks_clock ticks_clock
             (Thread_new ticks_clock ticks_clock (mkProcess true 0%N BaseCallback)) [Enter; Exit]) in
  exists P, In P F /\ caller_index P = index P /\
    forall l, prev_chain F (youngest_child_index P) l -> ~ In (index P) l.
Proof.
  intros F.
  assert (HF : F = [mkTimer 0 0 0 0%N 1%N 0%N 0%N 1; mkTimer 1 0 0 2%N 3%N 4%N 5%N 0])
    by (vm_compute; reflexivity).
  clearbody F. subst F.
  exists (mkTimer 0 0 0 0%N 1%N 0%N 0%N 1). split; [left; reflexivity|]. split; [reflexivity|].
  intros l Hl. cbn [youngest_child_index index] in *.
  destruct (prev_chain_inv _ _ _ Hl) as [[E _] | [t [l' [Ei [_ [Hin [Hrest ->]]]]]]];
    [discriminate|].
  destruct Hin as [<- | [<- | []]]; cbn [index prev_index] in *; [discriminate|].
  destruct (prev_chain_inv _ _ _ Hrest) as [[_ ->] | [t' [l'' [Ei' [Ht' _]]]]].
  - simpl. intuition discriminate.
  - congruence.
Qed.

(** C4 (amended): on a balanced run torn down with the draining consumer,
    the delivered frames carry the indices [0..n-1]; for a transitive [R]
    relating each clock reading to the next one ([N.le]: non-decreasing
    clocks, [N.lt]: increasing clocks), start stamps are [R]-ordered along
    the index order and stop stamps along the delivery (completion) order.
    The run enters fewer than [size_max] = 2^64 - 1 frames above the root,
    so the [size_t] index counter does not wrap. *)
Theorem frame_order (R : N -> N -> Prop) (wc : nat -> WallTime) (cc : nat -> CpuTime)
  (p : Process) (os : list op) :
  (forall a b c, R a b -> R b c -> R a c) ->
  (forall k, R (wc k) (wc (S k))) -> (forall k, R (cc k) (cc (S k))) ->
  balanced os = true -> callback p = StoreCallback ->
  (N.of_nat (count_enters os) < size_max)%N ->
  let D := delivered (trace (Thread_drop wc cc (run_ops wc cc (Thread_new wc cc p) os))) in
  Permutation (map index D) (seq 0 (S (count_enters os))) /\
  (forall a b, In a D -> In b D -> index a < index b ->
     R (start_wall a) (start_wall b) /\ R (start_cpu a) (start_cpu b)) /\
  StronglySorted (stop_rel R) D.
Proof.
  intros Htr Hw Hc Hb Hcb Hbd D.
  destruct (store_drop_delivered wc cc p os Hb Hcb Hbd) as [_ [_ [Ha [Hcomp [Hp _]]]]].
  fold D in Ha, Hcomp, Hp.
  destruct (time_run R wc cc Htr Hw Hc p os Hb Hbd) as [[_ HS] [_ HO]].
  rewrite Ha in HS. rewrite Hcomp in HO.
  split; [exact Hp|]. split; [|exact HO].
  intros a b Ha' Hb' Hlt.
  exact (HS (index a) (start_wall a) (start_cpu a) (index b) (start_wall b) (start_cpu b)
            (in_map start_key D a Ha') (in_map start_key D b Hb') Hlt).
Qed.

(** C4, counterexample: with clocks that do not move, monotone but not
    increasing, the start and stop stamps are equal, not strictly
    increasing. *)
Lemma frame_order_const_clock_cex :
  let c7 := fun _ : nat => 7%N in
  map (fun t => (index t, start_wall t, start_cpu t, stop_wall t, stop_cpu t))
    (delivered (trace (Thread_drop c7 c7 (run_ops c7 c7
       (Thread_new c7 c7 (mkProcess true 0%N StoreCallback)) [Enter; Exit]))))
  = [(1, 7%N, 7%N, 7%N, 7%N); (0, 7%N, 7%N, 7%N, 7%N)].
Proof. vm_compute. reflexivity. Qed.

(** C5 (amended): an exit stops the top frame [f] and appends it to
    [finished]; [now] is [f]'s stop CPU time.  Under [callback_once] (0)
    nothing else happens; under [callback_every_frame] (1) the in-situ hook
    runs; under any other period it runs exactly when
    [last_log + period < now].  With the draining consumer the hook receives
    the finished frames, [f] last, and leaves [finished] empty. *)
Theorem exit_flush_policy (wc : nat -> WallTime) (cc : nat -> CpuTime)
  (w : World) (top : Timer) (rest : list Timer) :
  stack (thread w) = top :: rest ->
  let k := ticks (thread w) in
  let f := fst (fst (stop_timers wc cc top k)) in
  let w0 := set_thread w (mkThread rest (finished (thread w) ++ [f]) (next_index (thread w))
                            (last_log (thread w)) (S (S k))
                            (failed (thread w) ++ snd (stop_timers wc cc top k))) in
  exit_stack_frame wc cc w =
    (if flush_due (policy_of_period (callback_period (process w))) (last_log (thread w)) (stop_cpu f)
     then thread_in_situ w0 else w0) /\
  (callback (process w) = StoreCallback ->
     finished (thread (thread_in_situ w0)) = [] /\
     trace (thread_in_situ w0) = trace w ++ [ev_thread_in_situ (finished (thread w) ++ [f])]).
Proof.
  intros H k f w0. split.
  - transitivity (maybe_flush w0); [unfold exit_stack_frame; rewrite H; reflexivity|].
    unfold maybe_flush.
    change (finished (thread w0)) with (finished (thread w) ++ [f]).
    change (last_log (thread w0)) with (last_log (thread w)).
    change (process w0) with (process w).
    destruct (finished (thread w) ++ [f]) as [|f0 l] eqn:E;
      [destruct (finished (thread w)); discriminate|].
    rewrite <- E, last_snoc.
    unfold flush_due, policy_of_period.
    destruct (callback_period (process w) =? 0)%N; [reflexivity|].
    destruct (callback_period (process w) =? 1)%N; reflexivity.
  - intros Hcb. unfold thread_in_situ. change (process w0) with (process w). rewrite Hcb.
    split; reflexivity.
Qed.

(** C5, counterexample: period 5, a frame stopping at CPU time 5 with
    [last_log = 0]: [now >= last_log + 5] holds, yet no in-situ hook runs,
    since the code compares strictly. *)
Lemma exit_flush_strict_cex :
  let w := run_ops ticks_clock ticks_clock
             (Thread_new ticks_clock ticks_clock (mkProcess true 5%N StoreCallback)) [Enter; Exit] in
  policy_of_period (callback_period (process w)) = Periodic 5%N /\
  map stop_cpu (finished (thread w)) = [5%N] /\
  last_log (thread w) = 0%N /\
  trace w = [ev_thread_start].
Proof. split; [|split; [|split]]; vm_compute; reflexivity. Qed.

(** C6: the thread reads the period, the callback and the enablement flag
    from the process on every use, so a change made after the thread was
    created changes what it does: a thread created under [callback_once]
    flushes after [callback_every_frame]; a thread created with the base
    callback has its frames drained by a callback set later; a thread
    created enabled records no frame once the process is disabled. *)
Theorem config_read_live :
  let w0 := Thread_new ticks_clock ticks_clock (mkProcess true 0%N StoreCallback) in
  let w1 := Thread_new ticks_clock ticks_clock (mkProcess true 1%N BaseCallback) in
  map is_in_situ (trace (run_ops ticks_clock ticks_clock w0 [Enter; Exit])) = [false] /\
  map is_in_situ (trace (run_ops ticks_clock ticks_clock
    (set_process w0 (callback_every_frame (process w0))) [Enter; Exit])) = [false; true] /\
  map index (delivered (trace (run_ops ticks_clock ticks_clock w1 [Enter; Exit]))) = [] /\
  map index (delivered (trace (run_ops ticks_clock ticks_clock
    (set_process w1 (set_callback (process w1) StoreCallback)) [Enter; Exit]))) = [1] /\
  stack (thread (snd (ScopeTimer_new ticks_clock ticks_clock
    (set_process w0 (set_enabled (process w0) false))))) = stack (thread w0).
Proof. split; [|split; [|split; [|split]]]; vm_compute; reflexivity. Qed.

(** C9 (amended): when the CPU clock never reads 0, no timer assertion
    fires in a properly nested run, nor at the teardown of a balanced one;
    starting a started timer fires "timer already started", and stopping a
    never-started timer fires "timer never started". *)
Theorem timer_assertions (wc : nat -> WallTime) (cc : nat -> CpuTime) (p : Process) (os : list op) :
  (forall k, cc k <> 0%N) ->
  (properly_nested os = true ->
     failed (thread (run_ops wc cc (Thread_new wc cc p) os)) = []) /\
  (balanced os = true ->
     failed (thread (Thread_drop wc cc (run_ops wc cc (Thread_new wc cc p) os))) = []) /\
  (forall t k, start_cpu t <> 0%N ->
     In "timer already started"%string (snd (start_timers wc cc t k))) /\
  (forall t k, start_cpu t = 0%N ->
     In "timer never started"%string (snd (stop_timers wc cc t k))).
Proof.
  intros Hnz. split; [|split; [|split]].
  - intros Hpn. unfold properly_nested in Hpn.
    destruct (close_depth 0 os) as [d|] eqn:Hc; [|discriminate].
    exact (proj1 (clean_run wc cc Hnz p os d Hc)).
  - intros Hb. destruct (drop_run wc cc p os Hb) as [r [Hs Hd]]. rewrite Hd.
    destruct (thread_stop_same (exit_stack_frame wc cc (run_ops wc cc (Thread_new wc cc p) os)))
      as [_ [_ [_ [_ [_ ->]]]]].
    unfold balanced in Hb.
    destruct (close_depth 0 os) as [[|d]|] eqn:Hc; try discriminate.
    exact (proj1 (clean_exit wc cc _ r [] (clean_run wc cc Hnz p os 0 Hc) Hs)).
  - intros t k H. unfold start_timers. simpl.
    destruct (start_cpu t =? 0)%N eqn:E; [apply N.eqb_eq in E; contradiction | left; reflexivity].
  - intros t k H. unfold stop_timers. simpl. rewrite H. simpl.
    apply in_or_app. right. left. reflexivity.
Qed.

(** C9, counterexample: a CPU clock that reads 0 makes the "timer never
    started" assertion fire on the root frame of an otherwise empty run. *)
Lemma timer_zero_clock_cex :
  let z := fun _ : nat => 0%N in
  failed (thread (Thread_drop ticks_clock z
    (run_ops ticks_clock z (Thread_new ticks_clock z (mkProcess true 0%N BaseCallback)) [])))
  = ["timer never started"%string].
Proof. vm_compute. reflexivity. Qed.

(** ** Further properties of the code *)

Lemma map_singletons_delivered (D : list Timer) :
  delivered (map (fun f => ev_thread_in_situ [f]) D) = D.
Proof. induction D as [|f D IH]; [reflexivity|]. unfold delivered in *. simpl. now rewrite IH. Qed.

Lemma maybe_flush_period0 w :
  callback_period (process w) = 0%N -> maybe_flush w = w.
Proof.
  intros H. unfold maybe_flush. destruct (finished (thread w)); [reflexivity|].
  rewrite H. reflexivity.
Qed.

Lemma run_ops_period0 wc cc os : forall w,
  callback_period (process w) = 0%N ->
  trace (run_ops wc cc w os) = trace w.
Proof.
  unfold run_ops. induction os as [|o os IH]; intros w H; [reflexivity|].
  simpl. destruct o; simpl.
  - rewrite IH by exact H. reflexivity.
  - rewrite IH.
    + unfold exit_stack_frame. destruct (stack (thread w)); [reflexivity|].
      destruct (stop_timers _ _ _ _) as [[? ?] ?].
      rewrite maybe_flush_period0 by exact H. reflexivity.
    + rewrite exit_keeps_process. exact H.
Qed.

(** X2: with [callback_once] (period 0), no enter/exit sequence ever calls
    the in-situ hook: the thread's only hook call is [thread_start], and
    [~Thread] adds exactly one [thread_stop]. *)
Theorem callback_once_hooks wc cc (p : Process) (os : list op) :
  callback_period p = 0%N ->
  let w := run_ops wc cc (Thread_new wc cc p) os in
  trace w = [ev_thread_start] /\
  exists b, trace (Thread_drop wc cc w) = [ev_thread_start; ev_thread_stop b].
Proof.
  intros Hp w.
  assert (Hw : trace w = [ev_thread_start])
    by (unfold w; rewrite run_ops_period0 by exact Hp; reflexivity).
  assert (Hw1 : trace (exit_stack_frame wc cc w) = [ev_thread_start]).
  { rewrite <- Hw. unfold exit_stack_frame. destruct (stack (thread w)); [reflexivity|].
    destruct (stop_timers _ _ _ _) as [[? ?] ?].
    rewrite maybe_flush_period0; [reflexivity|].
    simpl. unfold w. rewrite run_ops_process. exact Hp. }
  split; [exact Hw|].
  unfold Thread_drop.
  destruct (stack (thread (exit_stack_frame wc cc w)));
    match goal with |- exists b, trace (thread_stop ?x) = _ =>
      destruct (thread_stop_event x) as [b E]; exists b; rewrite E end;
    cbn [trace set_thread]; rewrite Hw1; reflexivity.
Qed.

Section EveryFrame.
Variable wc : nat -> WallTime.
Variable cc : nat -> CpuTime.
Variable p : Process.
Hypothesis period_one : callback_period p = 1%N.
Hypothesis store : callback p = StoreCallback.

Lemma every_frame_exit w top rest D :
  process w = p -> finished (thread w) = [] ->
  trace w = ev_thread_start :: map (fun f => ev_thread_in_situ [f]) D ->
  stack (thread w) = top :: rest ->
  let top' := fst (fst (stop_timers wc cc top (ticks (thread w)))) in
  process (exit_stack_frame wc cc w) = p /\
  finished (thread (exit_stack_frame wc cc w)) = [] /\
  stack (thread (exit_stack_frame wc cc w)) = rest /\
  next_index (thread (exit_stack_frame wc cc w)) = next_index (thread w) /\
  trace (exit_stack_frame wc cc w) =
    ev_thread_start :: map (fun f => ev_thread_in_situ [f]) (D ++ [top']).
Proof.
  intros Hp Hf Htr Hs top'.
  destruct (exit_nonempty wc cc w top rest Hs) as [th' [E [Hs' [Hf' [Hn' _]]]]].
  rewrite E. unfold maybe_flush. cbn [thread process set_thread]. rewrite Hf', Hf, Hp.
  cbn [app]. rewrite period_one. cbn -[thread_in_situ].
  unfold thread_in_situ. cbn [process set_thread]. rewrite Hp, store.
  cbn. rewrite Hf', Hf, Htr, map_app. repeat split; assumption || reflexivity.
Qed.

(** The bottom of the active stack, when there is one, is the root frame. *)
Lemma stack_bottom_enter w caller rest :
  stack (thread w) = caller :: rest ->
  (stack (thread w) = [] \/ exists s r, stack (thread w) = s ++ [r] /\ index r = 0 /\ caller_index r = 0) ->
  exists s r, stack (thread (set_thread w (enter_stack_frame wc cc (thread w)))) = s ++ [r] /\
              index r = 0 /\ caller_index r = 0.
Proof.
  intros Hs [H0 | [s [r [Hsr [Hi Hc]]]]]; [congruence|].
  unfold set_thread. cbn [thread]. rewrite (enter_cons wc cc _ _ _ Hs).
  cbn [stack]. rewrite Hs in Hsr.
  destruct s as [|x s].
  - injection Hsr as -> ->.
    exists [mkTimer (next_index (thread w)) (index r) (youngest_child_index r)
              (wc (ticks (thread w))) (cc (S (ticks (thread w)))) 0%N 0%N 0].
    exists (set_youngest_child_index r (next_index (thread w))). auto.
  - injection Hsr as -> ->.
    exists (mkTimer (next_index (thread w)) (index x) (youngest_child_index x)
              (wc (ticks (thread w))) (cc (S (ticks (thread w)))) 0%N 0%N 0
            :: set_youngest_child_index x (next_index (thread w)) :: s), r. auto.
Qed.

Lemma stack_bottom_exit (st : list Timer) top rest :
  st = top :: rest ->
  (st = [] \/ exists s r, st = s ++ [r] /\ index r = 0 /\ caller_index r = 0) ->
  rest = [] \/ exists s r, rest = s ++ [r] /\ index r = 0 /\ caller_index r = 0.
Proof.
  intros -> [H0 | [s [r [Hsr [Hi Hc]]]]]; [discriminate|].
  destruct s as [|x s].
  - injection Hsr as _ ->. now left.
  - injection Hsr as _ ->. right. exists s, r. auto.
Qed.

(** X3: with [callback_every_frame] (period 1) and the draining callback,
    every exit hands exactly the frame it closed to one [thread_in_situ]
    call.  After a properly nested run, [finished] is empty and the trace
    is [thread_start] followed by one single-frame in-situ batch per
    completed frame (entered minus still open).  The next exit closes the
    top frame [top]: the trace gains one batch holding [top], stopped (same
    index and links), and [finished] is empty again.  When [top] is the
    last frame open it is the root (index and caller index 0), and
    [~Thread] adds the root's batch and then a [thread_stop] with nothing
    left. *)
Theorem every_frame_batches os d :
  close_depth 0 os = Some d ->
  let w := run_ops wc cc (Thread_new wc cc p) os in
  let D := delivered (trace w) in
  finished (thread w) = [] /\
  trace w = ev_thread_start :: map (fun f => ev_thread_in_situ [f]) D /\
  List.length D + d = count_enters os /\
  (forall top rest, stack (thread w) = top :: rest ->
     let f := fst (fst (stop_timers wc cc top (ticks (thread w)))) in
     links f = links top /\
     trace (exit_stack_frame wc cc w) = trace w ++ [ev_thread_in_situ [f]] /\
     finished (thread (exit_stack_frame wc cc w)) = [] /\
     (rest = [] ->
        index top = 0 /\ caller_index top = 0 /\
        trace (Thread_drop wc cc w) = trace w ++ [ev_thread_in_situ [f]; ev_thread_stop []])).
Proof.
  intros Hc w D.
  destruct (run_ops_inv wc cc (fun w => process w = p /\ finished (thread w) = [] /\
     (exists D, trace w = ev_thread_start :: map (fun f => ev_thread_in_situ [f]) D) /\
     (stack (thread w) = [] \/
      exists s r, stack (thread w) = s ++ [r] /\ index r = 0 /\ caller_index r = 0)))
    with (os := os) (d := 0) (d' := d) (w := Thread_new wc cc p)
    as [[Hp [Hf [[D0 Htr] Hbot]]] Hl]; auto.
  - intros w0 caller rest [Hp [Hf [[D0 Htr] Hbot]]] Hs.
    cbn [process thread trace set_thread].
    rewrite finished_enter.
    split; [exact Hp|]. split; [exact Hf|]. split; [exists D0; exact Htr|].
    right. exact (stack_bottom_enter w0 caller rest Hs Hbot).
  - intros w0 top rest [Hp [Hf [[D0 Htr] Hbot]]] Hs.
    destruct (every_frame_exit w0 top rest D0 Hp Hf Htr Hs) as [Hp' [Hf' [Hs' [_ Htr']]]].
    split; [exact Hp'|]. split; [exact Hf'|]. split; [eexists; exact Htr'|].
    rewrite Hs'. exact (stack_bottom_exit _ top rest Hs Hbot).
  - split; [reflexivity|]. split; [reflexivity|]. split; [exists []; reflexivity|].
    right. exists []. eexists. split; [reflexivity|]. split; reflexivity.
  - fold w in Hp, Hf, Htr, Hbot, Hl.
    assert (HD : D = D0) by (unfold D; rewrite Htr; apply map_singletons_delivered).
    assert (Hst : forall x, callback (process x) = StoreCallback ->
                  trace (thread_stop x) = trace x ++ [ev_thread_stop (finished (thread x))])
      by (intros x Hx; unfold thread_stop; rewrite Hx; reflexivity).
    rewrite HD.
    split; [exact Hf|]. split; [exact Htr|]. split.
    + pose proof (run_ops_all_frames wc cc os 0 d (Thread_new wc cc p) Hc eq_refl) as Hn.
      fold w in Hn. unfold all_frames in Hn. rewrite Hf in Hn.
      change (delivered (trace w)) with D in Hn. rewrite HD in Hn.
      rewrite !length_app, Hl in Hn. simpl in Hn. lia.
    + intros top rest Hs f.
      destruct (every_frame_exit w top rest D0 Hp Hf Htr Hs) as [Hp' [Hf' [_ [_ Htr']]]].
      assert (Htr1 : trace (exit_stack_frame wc cc w) = trace w ++ [ev_thread_in_situ [f]])
        by (rewrite Htr', Htr, map_app; reflexivity).
      split; [reflexivity|]. split; [exact Htr1|]. split; [exact Hf'|].
      intros ->.
      destruct Hbot as [H0 | [s [r [Hsr [Hi Hcr]]]]]; [congruence|].
      rewrite Hs in Hsr.
      destruct s as [|x [|y s]]; [injection Hsr as <-| discriminate |discriminate].
      split; [exact Hi|]. split; [exact Hcr|].
      rewrite (drop_single wc cc w top Hs), Hst by (rewrite Hp'; exact store).
      rewrite Hf', Htr1, <- app_assoc. reflexivity.
Qed.

End EveryFrame.

(** X4: after a properly nested run, [Timer::is_leaf] holds exactly for the
    frames that no non-root frame names as caller, and for a non-root frame
    [Timer::has_prev] holds exactly when an older non-root frame (lower
    index) has the same caller.  The run enters fewer than [size_max] =
    2^64 - 1 frames above the root, so the [size_t] index counter does not
    wrap. *)
Theorem leaf_and_prev_meaning (wc : nat -> WallTime) (cc : nat -> CpuTime) (p : Process) (os : list op) :
  properly_nested os = true -> (N.of_nat (count_enters os) < size_max)%N ->
  let F := all_frames (run_ops wc cc (Thread_new wc cc p) os) in
  (forall P, In P F ->
     is_leaf P = true <-> ~ exists c, In c F /\ 0 < index c /\ caller_index c = index P) /\
  (forall c, In c F -> 0 < index c ->
     has_prev c = true <->
     exists e, In e F /\ 0 < index e /\ index e < index c /\ caller_index e = caller_index c).
Proof.
  intros Hpn Hbd F. unfold properly_nested in Hpn.
  destruct (close_depth 0 os) as [d|] eqn:Hc; [|discriminate].
  destruct (run_frames wc cc p os d Hc Hbd) as [Hi _]. unfold frames_inv in Hi.
  change (all_frames (run_ops wc cc (Thread_new wc cc p) os)) with F in Hi.
  set (n := next_index (thread (run_ops wc cc (Thread_new wc cc p) os))) in Hi.
  pose proof Hi as [Hix [Hy [Hcl Hr]]].
  split.
  - intros P HP. unfold is_leaf.
    change (youngest_child_index P) with (l_youngest (links P)).
    rewrite (Hy (links P) (in_map links F P HP)). change (l_index (links P)) with (index P).
    rewrite Nat.eqb_eq. split.
    + intros H0 [c [Hin [Hpos Hq]]].
      pose proof (tree_inv_index_lt _ _ (links c) Hi (in_map links F c Hin)) as Hlt.
      pose proof (youngest_below_max (map links F) (index P) n (links c)
                    (in_map links F c Hin) Hpos Hlt Hq) as Hm.
      change (l_index (links c)) with (index c) in Hm. lia.
    + intros Hno. apply youngest_below_none. intros c' Hin Hpos _ Hq.
      apply in_map_iff in Hin as [c [<- Hin]]. apply Hno. exists c. cbn in Hpos, Hq. auto.
  - intros c Hin Hpos. unfold has_prev.
    change (prev_index c) with (l_prev (links c)).
    rewrite (proj2 (Hcl (links c) (in_map links F c Hin) Hpos)).
    change (l_caller (links c)) with (caller_index c); change (l_index (links c)) with (index c).
    split.
    + intros Hne.
      destruct (youngest_below_zero_or (map links F) (caller_index c) (index c))
        as [E | [e' [He [_ [He0 [Hlt Hq]]]]]].
      * rewrite E in Hne. discriminate.
      * apply in_map_iff in He as [e [<- He]]. exists e. cbn in He0, Hlt, Hq. auto.
    + intros [e [He [He0 [Hlt Hq]]]].
      pose proof (youngest_below_max (map links F) (caller_index c) (index c) (links e)
                    (in_map links F e He) He0 Hlt Hq) as Hm.
      change (l_index (links e)) with (index e) in Hm.
      destruct (youngest_below _ _ _) as [|m]; [lia | reflexivity].
Qed.

Lemma map_set_eq {V} (m : ThreadId -> V) k v : map_set m k v k = v.
Proof. unfold map_set. now rewrite Nat.eqb_refl. Qed.

Lemma map_set_neq {V} (m : ThreadId -> V) k v k' : k' <> k -> map_set m k v k' = m k'.
Proof. intros H. unfold map_set. apply Nat.eqb_neq in H. now rewrite H. Qed.

Lemma size_t_incr_small c : (c < size_max)%N -> size_t_incr c = N.succ c.
Proof. intros H. unfold size_t_incr. destruct (N.eqb_spec c size_max); [lia | reflexivity]. Qed.

Lemma size_t_decr_pos c : (0 < c)%N -> size_t_decr c = N.pred c.
Proof. intros H. unfold size_t_decr. destruct (N.eqb_spec c 0); [lia | reflexivity]. Qed.

Lemma run_registry_cons {Cfg V Out} (construct : Cfg -> V) (destroy : Cfg -> V -> Out) r o os :
  run_registry construct destroy r (o :: os) =
  run_registry construct destroy (reg_step construct destroy r o) os.
Proof. reflexivity. Qed.

Section RegistryProofs.
Context {Cfg V Out : Type}.
Variable construct : Cfg -> V.
Variable destroy : Cfg -> V -> Out.


Lemma reg_step_config (r : Registry Cfg V Out) o :
  reg_config (reg_step construct destroy r o) = reg_config r.
Proof.
  destruct o as [i|i|i f]; simpl.
  - reflexivity.
  - unfold delete_thread. destruct (threads r i); [|reflexivity].
    destruct (_ =? 0)%N; reflexivity.
  - unfold use_thread. destruct (threads r i); reflexivity.
Qed.

Lemma run_registry_config (r : Registry Cfg V Out) os :
  reg_config (run_registry construct destroy r os) = reg_config r.
Proof.
  revert r; induction os as [|o os IH]; intros r; [reflexivity|].
  rewrite run_registry_cons, IH. apply reg_step_config.
Qed.

(** The bookkeeping invariant after [n] operations. *)
Lemma reg_step_count (r : Registry Cfg V Out) o n :
  (forall id, (threads r id = None <-> thread_use_count r id = 0%N) /\
              (thread_use_count r id <= N.of_nat n)%N) ->
  (N.of_nat n < size_max)%N ->
  forall id, (threads (reg_step construct destroy r o) id = None <->
              thread_use_count (reg_step construct destroy r o) id = 0%N) /\
             (thread_use_count (reg_step construct destroy r o) id <= N.of_nat (S n))%N.
Proof.
  intros Hinv Hn id. destruct o as [i|i|i f]; simpl.
  - unfold create_thread. cbn [threads thread_use_count].
    destruct (Nat.eq_dec id i) as [-> | Hne].
    + rewrite map_set_eq. destruct (Hinv i) as [Hiff Hle].
      rewrite size_t_incr_small by lia.
      destruct (threads r i) eqn:E.
      * rewrite E. split; [split; [discriminate | lia] | lia].
      * rewrite map_set_eq. split; [split; [discriminate | lia] | lia].
    + rewrite map_set_neq by exact Hne. destruct (Hinv id) as [Hiff Hle].
      destruct (threads r i); [|rewrite map_set_neq by exact Hne];
        (split; [exact Hiff | lia]).
  - unfold delete_thread.
    destruct (threads r i) as [v|] eqn:E; [|destruct (Hinv id); split; [assumption | lia]].
    destruct (Hinv i) as [Hiff_i Hle_i].
    assert (Hpos : (0 < thread_use_count r i)%N).
    { destruct (N.eq_dec (thread_use_count r i) 0) as [H0|H0]; [|lia].
      apply Hiff_i in H0. congruence. }
    rewrite size_t_decr_pos by exact Hpos.
    destruct (N.eqb_spec (N.pred (thread_use_count r i)) 0) as [Hz|Hz];
      cbn [threads thread_use_count];
      (destruct (Nat.eq_dec id i) as [-> | Hne];
       [rewrite !map_set_eq | rewrite !map_set_neq by exact Hne; destruct (Hinv id); split; [assumption | lia]]).
    + split; [split; intros _; first [exact Hz | reflexivity] | lia].
    + rewrite E. split; [split; [discriminate | intros H; contradiction] | lia].
  - unfold use_thread. destruct (threads r i) as [v|] eqn:E;
      [|destruct (Hinv id); split; [assumption | lia]].
    cbn [threads thread_use_count].
    destruct (Nat.eq_dec id i) as [-> | Hne].
    + rewrite map_set_eq. destruct (Hinv i) as [Hiff Hle]. rewrite <- Hiff, E.
      split; [split; discriminate | lia].
    + rewrite map_set_neq by exact Hne. destruct (Hinv id); split; [assumption | lia].
Qed.

Lemma run_registry_count os : forall (r : Registry Cfg V Out) n,
  (forall id, (threads r id = None <-> thread_use_count r id = 0%N) /\
              (thread_use_count r id <= N.of_nat n)%N) ->
  (N.of_nat (n + List.length os) < size_max)%N ->
  forall id,
    (threads (run_registry construct destroy r os) id = None <->
     thread_use_count (run_registry construct destroy r os) id = 0%N) /\
    (thread_use_count (run_registry construct destroy r os) id <= N.of_nat (n + List.length os))%N.
Proof.
  induction os as [|o os IH]; intros r n Hinv Hb id.
  - simpl. rewrite Nat.add_0_r. apply Hinv.
  - rewrite run_registry_cons. simpl List.length in Hb |- *.
    replace (n + S (List.length os)) with (S n + List.length os) in * by lia.
    apply IH; [|exact Hb].
    apply reg_step_count; [exact Hinv | lia].
Qed.

End RegistryProofs.

(** X5: in [Process]'s thread registry, from an empty registry and as long
    as no use count can wrap, an id has an entry exactly when its
    [thread_use_count] is non-zero, and [delete_thread] on an id without an
    entry changes nothing. *)
Theorem registry_count_tracks_entry {Cfg V Out} (construct : Cfg -> V) (destroy : Cfg -> V -> Out)
  (c : Cfg) (os : list (reg_op V)) :
  (N.of_nat (List.length os) < size_max)%N ->
  let r := run_registry construct destroy (Registry_new c) os in
  forall id, (threads r id = None <-> thread_use_count r id = 0%N) /\
             (threads r id = None -> delete_thread destroy r id = r).
Proof.
  intros Hb r id.
  destruct (run_registry_count construct destroy os (Registry_new c) 0) with (id := id)
    as [Hiff _].
  - intros id'. simpl. split; [split; reflexivity | lia].
  - exact Hb.
  - split; [exact Hiff|]. intros H. unfold delete_thread. fold r in H. rewrite H. reflexivity.
Qed.

Section Lifetime.
Context {Cfg V Out : Type}.
Variable construct : Cfg -> V.
Variable destroy : Cfg -> V -> Out.
Variable id : ThreadId.

Lemma delete_keep (r : Registry Cfg V Out) v d :
  threads r id = Some v -> thread_use_count r id = N.of_nat (S (S d)) ->
  delete_thread destroy r id =
  mkRegistry (reg_config r) (threads r)
    (map_set (thread_use_count r) id (N.of_nat (S d))) (destroyed r).
Proof.
  intros Ht Hc. unfold delete_thread. rewrite Ht, Hc, size_t_decr_pos by lia.
  replace (N.pred (N.of_nat (S (S d)))) with (N.of_nat (S d)) by lia.
  destruct (N.of_nat (S d) =? 0)%N eqn:Ez; [apply N.eqb_eq in Ez; lia | reflexivity].
Qed.

Lemma reg_step_other (r : Registry Cfg V Out) o :
  op_thread o <> id ->
  threads (reg_step construct destroy r o) id = threads r id /\
  thread_use_count (reg_step construct destroy r o) id = thread_use_count r id /\
  filter (fun e : ThreadId * Out => Nat.eqb (fst e) id) (destroyed (reg_step construct destroy r o)) =
  filter (fun e : ThreadId * Out => Nat.eqb (fst e) id) (destroyed r).
Proof.
  destruct o as [i|i|i f]; simpl; intros Hne.
  - unfold create_thread. simpl. rewrite (map_set_neq _ i _ id) by congruence.
    destruct (threads r i); [|rewrite map_set_neq by congruence]; auto.
  - unfold delete_thread. destruct (threads r i) as [w|]; [|auto].
    destruct (_ =? 0)%N; simpl; rewrite ?(map_set_neq _ i _ id) by congruence; auto.
    split; [reflexivity|]. split; [reflexivity|].
    rewrite filter_app. simpl. destruct (Nat.eqb_spec i id); [congruence|]. apply app_nil_r.
  - unfold use_thread. destruct (threads r i); simpl; rewrite ?(map_set_neq _ i _ id) by congruence; auto.
Qed.

Lemma lifetime_mid mid : forall (r : Registry Cfg V Out) v d d',
  threads r id = Some v -> thread_use_count r id = N.of_nat d -> 1 <= d ->
  (N.of_nat (d + List.length mid) < size_max)%N ->
  live_containers id d mid = Some d' ->
  let r' := run_registry construct destroy r mid in
  threads r' id = Some (uses_of id mid v) /\ thread_use_count r' id = N.of_nat d' /\ 1 <= d' /\
  filter (fun e : ThreadId * Out => Nat.eqb (fst e) id) (destroyed r') =
  filter (fun e : ThreadId * Out => Nat.eqb (fst e) id) (destroyed r).
Proof.
  induction mid as [|o mid IH]; intros r v d d' Ht Hc H1 Hb Hl r'.
  - simpl in Hl. injection Hl as <-. auto.
  - unfold r'. rewrite run_registry_cons. simpl List.length in Hb.
    destruct (Nat.eq_dec (op_thread o) id) as [Ho | Ho].
    + destruct o as [i|i|i f]; simpl in Ho; subst i; simpl in Hl |- *;
        try rewrite Nat.eqb_refl in Hl; try rewrite Nat.eqb_refl.
      * (* Create id *)
        assert (A : threads (create_thread construct r id) id = Some v)
          by (unfold create_thread; rewrite Ht; exact Ht).
        assert (B : thread_use_count (create_thread construct r id) id = N.of_nat (S d))
          by (unfold create_thread; simpl; rewrite map_set_eq, Hc, size_t_incr_small by lia; lia).
        refine (IH _ v (S d) d' A B _ _ Hl); lia.
      * (* Delete id *)
        destruct d as [|[|d]]; [lia | discriminate|].
        rewrite (delete_keep r v d Ht Hc).
        match goal with |- context [run_registry _ _ ?r1 mid] =>
          refine (IH r1 v (S d) d' Ht (map_set_eq _ _ _) _ _ Hl); lia end.
      * (* Use id f *)
        unfold use_thread. rewrite Ht.
        match goal with |- context [run_registry _ _ ?r1 mid] =>
          refine (IH r1 (f v) d d' (map_set_eq _ _ _) Hc H1 _ Hl); lia end.
    + destruct (reg_step_other r o Ho) as [E1 [E2 E3]].
      assert (Hl' : live_containers id d mid = Some d').
      { destruct o as [i|i|i f]; simpl in Ho, Hl; [|destruct (Nat.eqb_spec i id)|];
          try (destruct (Nat.eqb_spec i id); [congruence|]); congruence. }
      assert (Hu : uses_of id (o :: mid) v = uses_of id mid v).
      { destruct o as [i|i|i f]; simpl in Ho |- *; try reflexivity.
        destruct (Nat.eqb_spec i id); [congruence | reflexivity]. }
      rewrite Hu.
      destruct (IH (reg_step construct destroy r o) v d d') as [A [B [C D]]];
        [congruence | congruence | exact H1 | lia | exact Hl' |].
      split; [exact A|]. split; [exact B|]. split; [exact C|]. rewrite D. exact E3.
Qed.

Lemma lifetime_end v : forall d (r : Registry Cfg V Out),
  threads r id = Some v -> thread_use_count r id = N.of_nat (S d) ->
  (forall j, j <= d ->
     threads (run_registry construct destroy r (repeat (Delete id) j)) id = Some v) /\
  let r' := run_registry construct destroy r (repeat (Delete id) (S d)) in
  threads r' id = None /\ thread_use_count r' id = 0%N /\
  destroyed r' = destroyed r ++ [(id, destroy (reg_config r) v)].
Proof.
  induction d as [|d IH]; intros r Ht Hc.
  - split.
    + intros j Hj. replace j with 0 by lia. exact Ht.
    + simpl. unfold delete_thread. rewrite Ht, Hc. simpl. rewrite !map_set_eq.
      repeat split.
  - assert (Hstep : delete_thread destroy r id =
             mkRegistry (reg_config r) (threads r)
               (map_set (thread_use_count r) id (N.of_nat (S d))) (destroyed r)).
    { exact (delete_keep r v d Ht Hc). }
    destruct (IH (delete_thread destroy r id)) as [Hmid Hend];
      [rewrite Hstep; exact Ht | rewrite Hstep; simpl; apply map_set_eq |].
    split.
    + intros [|j] Hj; [exact Ht|].
      change (repeat (Delete id) (S j)) with (Delete (V := V) id :: repeat (Delete id) j).
      rewrite run_registry_cons. apply Hmid. lia.
    + change (repeat (Delete id) (S (S d))) with (Delete (V := V) id :: repeat (Delete id) (S d)).
      rewrite run_registry_cons. simpl reg_step.
      destruct Hend as [A [B C]]. split; [exact A|]. split; [exact B|].
      rewrite C, Hstep. reflexivity.
Qed.

End Lifetime.

(** X6: the lifetime of a registry entry.  For an id absent from the
    registry, [create_thread] constructs the value once; while the id's
    containers stay alive, other ids' operations leave the entry alone and
    further [create_thread] calls only raise the count to the number of
    live containers.  The entry stays, with the work done on it, through one
    fewer [delete_thread] than that count, and the last one erases it and
    runs its destructor exactly once. *)
Theorem thread_lifetime {Cfg V Out} (construct : Cfg -> V) (destroy : Cfg -> V -> Out)
  (r : Registry Cfg V Out) (id : ThreadId) (mid : list (reg_op V)) (d : nat) :
  threads r id = None -> thread_use_count r id = 0%N ->
  live_containers id 1 mid = Some d ->
  (N.of_nat (S (List.length mid)) < size_max)%N ->
  let v := uses_of id mid (construct (reg_config r)) in
  let r1 := run_registry construct destroy r (Create id :: mid) in
  let keep := filter (fun e : ThreadId * Out => Nat.eqb (fst e) id) in
  threads r1 id = Some v /\ thread_use_count r1 id = N.of_nat d /\ 0 < d /\
  keep (destroyed r1) = keep (destroyed r) /\
  (forall j, j < d ->
     threads (run_registry construct destroy r1 (repeat (Delete id) j)) id = Some v) /\
  (let r2 := run_registry construct destroy r1 (repeat (Delete id) d) in
   threads r2 id = None /\ thread_use_count r2 id = 0%N /\
   keep (destroyed r2) = keep (destroyed r) ++ [(id, destroy (reg_config r) v)]).
Proof.
  intros Ht Hc Hl Hb v r1 keep.
  set (r0 := create_thread construct r id).
  assert (E1 : r1 = run_registry construct destroy r0 mid) by reflexivity.
  assert (Ht0 : threads r0 id = Some (construct (reg_config r)))
    by (unfold r0, create_thread; rewrite Ht; simpl; apply map_set_eq).
  assert (Hc0 : thread_use_count r0 id = N.of_nat 1)
    by (unfold r0, create_thread; simpl; rewrite map_set_eq, Hc; reflexivity).
  destruct (lifetime_mid construct destroy id mid r0 _ 1 d Ht0 Hc0 (le_n 1)) as [A [B [C D]]];
    [simpl List.length; lia | exact Hl |].
  rewrite <- E1 in A, B, D. fold v in A.
  assert (Hcfg : reg_config r1 = reg_config r)
    by (rewrite E1; rewrite run_registry_config; reflexivity).
  assert (Hkeep0 : keep (destroyed r0) = keep (destroyed r)) by reflexivity.
  destruct d as [|d]; [lia|].
  destruct (lifetime_end construct destroy id v d r1 A B) as [Hmid [F1 [F2 F3]]].
  split; [exact A|]. split; [exact B|]. split; [lia|].
  split; [unfold keep in *; rewrite D; exact Hkeep0|].
  split; [intros j Hj; apply Hmid; lia|].
  split; [exact F1|]. split; [exact F2|].
  unfold keep in *. rewrite F3, filter_app, D, Hkeep0, Hcfg. simpl. rewrite Nat.eqb_refl.
  reflexivity.
Qed.

Module CpuTimer2Facts.
Import CpuTimer2.

Section Facts.
Variable wc : nat -> WallTime.
Variable cc : nat -> CpuTime.

Lemma flush_with_locks_facts w :
  let w' := flush_with_locks w in
  stack (st w') = stack (st w) /\ finished (st w') = [] /\
  stack_start_index (st w') = stack_start_index (st w) /\
  stack_stop_index (st w') = stack_stop_index (st w) /\
  failed (st w') = failed (st w) /\ process w' = process w /\
  calls w' = calls w ++ (if callback (process w) then [finished (st w)] else []).
Proof.
  unfold flush_with_locks. destruct (callback (process w)); simpl; rewrite ?app_nil_r;
    repeat split.
Qed.

Lemma maybe_flush_cases2 w : maybe_flush w = w \/ maybe_flush w = flush_with_locks w.
Proof.
  unfold maybe_flush. destruct (finished (st w)); [now left|].
  destruct (_ && _); [now right | now left].
Qed.

Lemma maybe_flush_keeps w :
  let w' := maybe_flush w in
  stack (st w') = stack (st w) /\
  stack_start_index (st w') = stack_start_index (st w) /\
  stack_stop_index (st w') = stack_stop_index (st w) /\
  failed (st w') = failed (st w) /\ process w' = process w /\
  (callback (process w) = true -> completed w' = completed w).
Proof.
  destruct (maybe_flush_cases2 w) as [-> | ->]; [repeat split; auto|].
  destruct (flush_with_locks_facts w) as [A [B [C [D [E [F G]]]]]].
  repeat split; auto.
  intros Hcb. unfold completed. rewrite B, G, Hcb, concat_app. simpl.
  now rewrite !app_nil_r.
Qed.

Lemma flush_nonempty w : finished (st w) <> [] -> flush w = flush_with_locks w.
Proof. unfold flush. destruct (finished (st w)); [congruence | reflexivity]. Qed.

Lemma flush_empty w : finished (st w) = [] -> flush w = w.
Proof. unfold flush. intros ->. reflexivity. Qed.

Lemma exit_cons2 w fn top rest :
  stack (st w) = top :: rest ->
  let s := st w in
  let '(top', k', fails) := stop_timer wc cc top (stack_stop_index s) (ticks s) in
  exit_stack_frame wc cc fn w =
  maybe_flush (set_st w (mkStack rest (finished s ++ [top']) (stack_start_index s)
                (index_incr (stack_stop_index s)) (last_log s) k'
                (failed s ++ fails ++
                 (if Nat.eqb fn (function_name top') then [] else [misaligned_msg])))).
Proof.
  intros H. cbv zeta. unfold exit_stack_frame. rewrite H.
  destruct (stop_timer wc cc top (stack_stop_index (st w)) (ticks (st w))) as [[top' k'] fails].
  reflexivity.
Qed.

(** [~Stack] on a stack holding only its root frame: the final flush goes
    through [flush_with_locks] whatever [maybe_flush] did. *)
Lemma drop_single2 w r :
  stack (st w) = [r] ->
  let s := st w in
  let '(r', k', fails) := stop_timer wc cc r (stack_stop_index s) (ticks s) in
  Stack_drop wc cc w =
  flush_with_locks (set_st w (mkStack [] (finished s ++ [r']) (stack_start_index s)
                (index_incr (stack_stop_index s)) (last_log s) k'
                (failed s ++ fails ++
                 (if Nat.eqb 0 (function_name r') then [] else [misaligned_msg])))).
Proof.
  intros H. cbv zeta. pose proof (exit_cons2 w 0 r [] H) as E. cbv zeta in E.
  destruct (stop_timer wc cc r (stack_stop_index (st w)) (ticks (st w))) as [[r' k'] fails].
  set (w0 := set_st w _) in E |- *.
  assert (Hf0 : finished (st w0) <> []) by (simpl; destruct (finished (st w)); discriminate).
  unfold Stack_drop. rewrite E.
  destruct (maybe_flush_keeps w0) as [Hs _]. rewrite Hs. simpl stack.
  destruct (maybe_flush_cases2 w0) as [-> | ->].
  - rewrite flush_nonempty by exact Hf0.
    destruct (flush_with_locks_facts w0) as [_ [B _]]. rewrite B. reflexivity.
  - destruct (flush_with_locks_facts w0) as [_ [B _]].
    rewrite flush_empty by exact B. rewrite B. reflexivity.
Qed.

Lemma stack_enter2 w fn :
  stack (st (set_st w (enter_stack_frame wc cc fn (st w)))) =
  fst (fst (start_timer wc cc
     (Frame_new fn (match stack (st w) with [] => 0 | top :: _ => start_index top end))
     (stack_start_index (st w)) (ticks (st w)))) :: stack (st w).
Proof. unfold enter_stack_frame. simpl. reflexivity. Qed.

Lemma stack_exit2 w fn top rest :
  stack (st w) = top :: rest -> stack (st (exit_stack_frame wc cc fn w)) = rest.
Proof.
  intros H. pose proof (exit_cons2 w fn top rest H) as E. cbv zeta in E.
  destruct (stop_timer wc cc top (stack_stop_index (st w)) (ticks (st w))) as [[top' k'] fails].
  rewrite E. match goal with |- context [maybe_flush ?x] =>
    destruct (maybe_flush_keeps x) as [-> _] end.
  reflexivity.
Qed.

Lemma start_index_enter2 w fn :
  stack_start_index (st (set_st w (enter_stack_frame wc cc fn (st w)))) =
  index_incr (stack_start_index (st w)).
Proof. reflexivity. Qed.

Lemma start_index_exit2 w fn :
  stack_start_index (st (exit_stack_frame wc cc fn w)) = stack_start_index (st w).
Proof.
  unfold exit_stack_frame. destruct (stack (st w)) as [|f l]; [reflexivity|].
  destruct (stop_timer wc cc f (stack_stop_index (st w)) (ticks (st w))) as [[? ?] ?].
  match goal with |- context [maybe_flush ?x] =>
    destruct (maybe_flush_keeps x) as [_ [-> _]] end.
  reflexivity.
Qed.

(** Induction over a run, for invariants an enter keeps only while the
    [start_index] counter does not wrap. *)
Lemma run_ops_inv2 (Q : World -> Prop) :
  (forall w fn top rest, Q w -> stack (st w) = top :: rest ->
     (N.of_nat (stack_start_index (st w)) < size_max)%N ->
     Q (set_st w (enter_stack_frame wc cc fn (st w)))) ->
  (forall w fn top rest, Q w -> stack (st w) = top :: rest ->
     (N.of_nat (stack_start_index (st w)) <= size_max)%N ->
     Q (exit_stack_frame wc cc fn w)) ->
  forall os d d' w, close_depth d (map fst os) = Some d' ->
    List.length (stack (st w)) = S d ->
    (N.of_nat (stack_start_index (st w) + count_enters (map fst os)) <= size_max)%N -> Q w ->
    Q (run_ops wc cc w os) /\ List.length (stack (st (run_ops wc cc w os))) = S d'.
Proof.
  intros HE HX os. unfold run_ops, count_enters.
  induction os as [|[o fn] os IH]; intros d d' w Hc Hl Hb Hq; simpl in Hc, Hb.
  - injection Hc as <-. auto.
  - change (fold_left (step wc cc) ((o, fn) :: os) w)
      with (fold_left (step wc cc) os (step wc cc w (o, fn))).
    destruct (stack (st w)) as [|top rest] eqn:Hs; [simpl in Hl; discriminate|].
    destruct o; simpl in Hb.
    + apply (IH (S d)); [exact Hc| | |eapply HE; eauto; lia].
      * simpl step. rewrite stack_enter2, Hs. simpl in Hl |- *. lia.
      * simpl step. rewrite start_index_enter2, index_incr_small by lia. lia.
    + destruct d as [|d]; [discriminate|].
      apply (IH d); [exact Hc| | |eapply HX; eauto; lia].
      * simpl step. rewrite (stack_exit2 w fn top rest Hs). simpl in Hl. lia.
      * simpl step. rewrite start_index_exit2. exact Hb.
Qed.

Lemma stop_timer_fields f i k :
  let f' := fst (fst (stop_timer wc cc f i k)) in
  function_name f' = function_name f /\ caller_start_index f' = caller_start_index f /\
  start_index f' = start_index f /\ stop_index f' = i.
Proof. repeat split. Qed.

Lemma run_ops_start_index2 w os :
  (N.of_nat (stack_start_index (st w) + count_enters (map fst os)) <= size_max)%N ->
  stack_start_index (st (run_ops wc cc w os)) = stack_start_index (st w) + count_enters (map fst os).
Proof.
  unfold run_ops, count_enters. revert w; induction os as [|[o fn] os IH]; intros w Hb.
  - simpl. lia.
  - change (fold_left (step wc cc) ((o, fn) :: os) w)
      with (fold_left (step wc cc) os (step wc cc w (o, fn))).
    destruct o; simpl in Hb.
    + simpl step. rewrite IH; rewrite start_index_enter2, index_incr_small by lia; simpl; lia.
    + simpl step. rewrite IH; rewrite start_index_exit2; simpl; lia.
Qed.

(** X7: cpu_timer's second [~Stack], with only the root frame left: it
    stops the root, empties the stack and [finished], never fires the
    drain assertion, and hands the remaining frames and then the root to
    the callback when there is one, or drops them when there is none. *)
Theorem stack_drop_root_only (w : World) (r : Frame) :
  stack (st w) = [r] ->
  let '(r', _, fails) := stop_timer wc cc r (stack_stop_index (st w)) (ticks (st w)) in
  let w' := Stack_drop wc cc w in
  stack (st w') = [] /\ finished (st w') = [] /\ process w' = process w /\
  failed (st w') = failed (st w) ++ fails ++
                   (if Nat.eqb 0 (function_name r) then [] else [misaligned_msg]) /\
  List.concat (calls w') =
    List.concat (calls w) ++ (if callback (process w) then finished (st w) ++ [r'] else []).
Proof.
  intros H. pose proof (drop_single2 w r H) as E. cbv zeta in E |- *.
  destruct (stop_timer_fields r (stack_stop_index (st w)) (ticks (st w))) as [Hfn _].
  destruct (stop_timer wc cc r (stack_stop_index (st w)) (ticks (st w))) as [[r' k'] fails].
  simpl in Hfn. rewrite E, Hfn.
  match goal with |- context [flush_with_locks ?x] =>
    destruct (flush_with_locks_facts x) as [A [B [_ [_ [C [D G]]]]]] end.
  rewrite A, B, C, D, G. simpl.
  split; [reflexivity|]. split; [reflexivity|]. split; [reflexivity|]. split; [reflexivity|].
  destruct (callback (process w)); simpl; rewrite concat_app; simpl; rewrite ?app_nil_r;
    reflexivity.
Qed.

(** X8: in cpu_timer's second version with a callback, a balanced run torn
    down by [~Stack] hands the callback every frame once: [stop_index]
    numbers them 0, 1, ... in delivery order, the [start_index] values are
    again 0 .. n-1, and every frame's [caller_start_index] is smaller than
    its own start index, except the root's, which is 0.  The run enters
    fewer than [size_max] = 2^64 - 1 frames above the root, so the [size_t]
    counters [start_index] and [stop_index] do not wrap. *)
Theorem stack_numbering (p : Process) (os : list (op * FuncName)) :
  callback p = true -> balanced (map fst os) = true ->
  (N.of_nat (count_enters (map fst os)) < size_max)%N ->
  let D := List.concat (calls (Stack_drop wc cc (run_ops wc cc (Stack_new wc cc p) os))) in
  List.length D = S (count_enters (map fst os)) /\
  map stop_index D = seq 0 (List.length D) /\
  Permutation (map start_index D) (seq 0 (List.length D)) /\
  (forall f, In f D -> 0 < start_index f -> caller_start_index f < start_index f) /\
  (forall f, In f D -> start_index f = 0 -> caller_start_index f = 0).
Proof.
  intros Hcb Hb Hbd D. unfold balanced in Hb.
  destruct (close_depth 0 (map fst os)) as [[|d]|] eqn:Hc; try discriminate.
  set (Q := fun w : World =>
    callback (process w) = true /\
    map stop_index (completed w) = seq 0 (stack_stop_index (st w)) /\
    Permutation (map start_index (stack (st w) ++ completed w)) (seq 0 (stack_start_index (st w))) /\
    (forall f, In f (stack (st w) ++ completed w) ->
       (0 < start_index f -> caller_start_index f < start_index f) /\
       (start_index f = 0 -> caller_start_index f = 0))).
  assert (Hmf : forall w, Q w -> Q (maybe_flush w)).
  { intros w [H1 [H2 [H3 H4]]].
    destruct (maybe_flush_keeps w) as [A [B [C [_ [E F]]]]].
    unfold Q. rewrite A, B, C, E, (F H1). auto. }
  (* with a frame open, fewer frames are stopped than started *)
  assert (Hstop : forall w top rest, Q w -> stack (st w) = top :: rest ->
            stack_stop_index (st w) < stack_start_index (st w)).
  { intros w top rest [_ [H2 [H3 _]]] Hs.
    pose proof (f_equal (@List.length nat) H2) as L2. rewrite length_map, length_seq in L2.
    pose proof (Permutation_length H3) as L3.
    rewrite length_map, length_seq, length_app, Hs in L3. simpl in L3. lia. }
  destruct (run_ops_inv2 Q) with (os := os) (d := 0) (d' := 0) (w := Stack_new wc cc p)
    as [Hq Hl]; auto.
  - intros w fn top rest [H1 [H2 [H3 H4]]] Hs Hbw.
    assert (Htop : start_index top < stack_start_index (st w)).
    { assert (Hin : In (start_index top) (seq 0 (stack_start_index (st w)))).
      { eapply Permutation_in; [exact H3|]. rewrite Hs. left. reflexivity. }
      apply in_seq in Hin. lia. }
    unfold Q, completed. rewrite start_index_enter2, index_incr_small by exact Hbw.
    simpl. rewrite Hs. simpl. unfold completed in H2, H3, H4.
    split; [exact H1|]. split; [exact H2|]. split.
    + change (0 :: seq 1 (stack_start_index (st w)))
        with (seq 0 (S (stack_start_index (st w)))).
      rewrite seq_S. apply Permutation_cons_app. rewrite app_nil_r.
      rewrite Hs in H3. exact H3.
    + intros f [<- | Hin]; [simpl; split; intros; lia|].
      apply H4. rewrite Hs. exact Hin.
  - intros w fn top rest Hq Hs Hbw.
    pose proof (Hstop w top rest Hq Hs) as Hlt.
    pose proof (exit_cons2 w fn top rest Hs) as E. cbv zeta in E.
    destruct (stop_timer_fields top (stack_stop_index (st w)) (ticks (st w))) as [_ [Hca [Hst Hsp]]].
    destruct (stop_timer wc cc top (stack_stop_index (st w)) (ticks (st w))) as [[top' k'] fails].
    simpl in Hca, Hst, Hsp. rewrite E. apply Hmf.
    destruct Hq as [H1 [H2 [H3 H4]]]. unfold completed in H2, H3, H4.
    unfold Q, completed, set_st.
    cbn [st stack finished calls process stack_start_index stack_stop_index].
    rewrite index_incr_small by lia.
    rewrite Hs in H3, H4.
    split; [exact H1|]. split; [|split].
    + rewrite app_assoc, map_app, H2, seq_S. simpl. rewrite Hsp. reflexivity.
    + eapply Permutation_trans; [|exact H3].
      replace (rest ++ List.concat (calls w) ++ finished (st w) ++ [top'])
        with ((rest ++ List.concat (calls w) ++ finished (st w)) ++ [top'])
        by (rewrite <- !app_assoc; reflexivity).
      rewrite map_app. cbn [map]. rewrite Hst.
      apply Permutation_sym, Permutation_cons_append.
    + intros f Hin.
      assert (Hin' : In f (rest ++ List.concat (calls w) ++ finished (st w)) \/ f = top')
        by (rewrite !in_app_iff in *; simpl in Hin; intuition).
      destruct Hin' as [Hin' | ->]; [apply H4; right; exact Hin'|].
      rewrite Hca, Hst. apply H4. left. reflexivity.
  - change (stack_start_index (st (Stack_new wc cc p))) with (index_incr 0).
    rewrite index_incr_small by reflexivity. lia.
  - unfold Q, Stack_new, completed. cbn -[index_incr].
    rewrite index_incr_small by reflexivity. split; [exact Hcb|].
    split; [reflexivity|]. split; [apply Permutation_refl|].
    intros f [<- | []]. simpl. split; intros; [lia | reflexivity].
  - set (w := run_ops wc cc (Stack_new wc cc p) os) in *.
    destruct (stack (st w)) as [|r [|? ?]] eqn:Hs; simpl in Hl; try discriminate.
    pose proof (Hstop w r [] Hq Hs) as Hlt.
    destruct Hq as [H1 [H2 [H3 H4]]]. rewrite Hs in H3, H4.
    pose proof (drop_single2 w r Hs) as E. cbv zeta in E.
    destruct (stop_timer_fields r (stack_stop_index (st w)) (ticks (st w))) as [_ [Hca [Hst Hsp]]].
    destruct (stop_timer wc cc r (stack_stop_index (st w)) (ticks (st w))) as [[r' k'] fails].
    simpl in Hca, Hst, Hsp.
    assert (HD : D = completed w ++ [r']).
    { unfold D. fold w. rewrite E.
      match goal with |- context [flush_with_locks ?x] =>
        destruct (flush_with_locks_facts x) as [_ [_ [_ [_ [_ [_ G]]]]]] end.
      rewrite G. simpl. rewrite H1, concat_app. simpl. unfold completed.
      rewrite app_nil_r, app_assoc. reflexivity. }
    assert (Hssi : stack_start_index (st w) = S (count_enters (map fst os))).
    { unfold w. rewrite run_ops_start_index2;
        change (stack_start_index (st (Stack_new wc cc p))) with (index_incr 0);
        rewrite index_incr_small by reflexivity; [reflexivity | lia]. }
    assert (Hperm : Permutation (map start_index D) (seq 0 (stack_start_index (st w)))).
    { eapply Permutation_trans; [|exact H3]. rewrite HD, map_app. cbn [map]. rewrite Hst.
      apply Permutation_sym, Permutation_cons_append. }
    assert (Hlen : List.length D = stack_start_index (st w))
      by (rewrite <- (length_map start_index D), (Permutation_length Hperm); apply length_seq).
    split; [congruence|].
    split; [|split; [rewrite Hlen; exact Hperm|]].
    + rewrite HD, map_app, H2. simpl. rewrite Hsp, <- seq_S.
      f_equal. rewrite length_app. rewrite <- (length_map stop_index (completed w)), H2.
      rewrite length_seq. simpl. lia.
    + assert (H5 : forall f, In f D -> (0 < start_index f -> caller_start_index f < start_index f) /\
                                   (start_index f = 0 -> caller_start_index f = 0)).
      { intros f Hin. rewrite HD in Hin. apply in_app_or in Hin as [Hin | [<- | []]].
        - apply H4. right. exact Hin.
        - rewrite Hca, Hst. apply H4. left. reflexivity. }
      split; intros f Hin; apply (H5 f Hin).
Qed.

End Facts.
End CpuTimer2Facts.

Module CpuTimer1Facts.
Import CpuTimer1.

Section Facts.
Variable wc : nat -> WallTime.
Variable cc : nat -> CpuTime.

Lemma maybe_call_callback_cases w :
  maybe_call_callback w = w \/ maybe_call_callback w = call_callback w.
Proof.
  unfold maybe_call_callback. destruct (finished (st w)); [now left|].
  destruct (_ && _); [now right | now left].
Qed.

(** X9: cpu_timer's first [~Stack], with only the [thread_main] frame left:
    the stack ends empty.  With a callback, [finished] and the main frame
    go to the callback and only the assertions of the exit itself can fire.  With an
    empty callback, [call_callback] does nothing, so the frames stay in
    [finished] and the [finished.empty()] assertion fires. *)
Theorem stack_drop_main_only (w : World) (r : StackFrame) :
  stack (st w) = [r] ->
  let '(r', _, fails) := stop_timer wc cc r (stack_stop_index (st w)) (ticks (st w)) in
  let w' := Stack_drop wc cc w in
  let xs := fails ++ (if Nat.eqb thread_main (function_name r) then []
                      else ["function_name == stack.back().get_function_name()"%string]) in
  stack (st w') = [] /\
  if callback (st w)
  then finished (st w') = [] /\
       List.concat (calls w') = List.concat (calls w) ++ finished (st w) ++ [r'] /\
       failed (st w') = failed (st w) ++ xs
  else finished (st w') = finished (st w) ++ [r'] /\ calls w' = calls w /\
       failed (st w') = failed (st w) ++ xs ++ ["finished.empty()"%string].
Proof.
  intros H. cbv zeta. unfold Stack_drop. cbv zeta. unfold exit_stack_frame. rewrite H.
  destruct (stop_timer wc cc r (stack_stop_index (st w)) (ticks (st w))) as [[r' k'] fails] eqn:E.
  assert (Hfn : function_name r' = function_name r)
    by (unfold stop_timer in E; injection E; intros; subst; reflexivity).
  rewrite Hfn.
  match goal with |- context [maybe_call_callback ?x] =>
    destruct (maybe_call_callback_cases x) as [E2 | E2]; rewrite E2 end;
  unfold call_callback; cbn [st stack finished calls with_frames callback];
  destruct (callback (st w)) eqn:Hcb;
  remember (finished (st w) ++ [r']) as F eqn:EF;
  (destruct F as [|f0 F']; [destruct (finished (st w)); discriminate|]);
  cbn [st stack finished calls with_frames callback failed]; rewrite ?Hcb;
  cbn [st stack finished calls with_frames callback failed]; rewrite EF.
  all: rewrite ?concat_app; simpl; rewrite ?app_nil_r, <- ?app_assoc; repeat split.
Qed.
End Facts.
End CpuTimer1Facts.

(** ** Instances of the claims on concrete runs *)

Lemma no_frame_lost_witness :
  balanced [Enter; Enter; Exit; Enter; Exit; Exit] = true /\
  callback (mkProcess true 3%N StoreCallback) = StoreCallback /\
  (N.of_nat (count_enters [Enter; Enter; Exit; Enter; Exit; Exit]) < size_max)%N /\
  (let w := Thread_drop ticks_clock ticks_clock
              (run_ops ticks_clock ticks_clock
                 (Thread_new ticks_clock ticks_clock (mkProcess true 3%N StoreCallback))
                 [Enter; Enter; Exit; Enter; Exit; Exit]) in
   Permutation (map index (delivered (trace w)))
     (seq 0 (S (count_enters [Enter; Enter; Exit; Enter; Exit; Exit]))) /\
   count_stops (trace w) = 1 /\
   (exists tr b, trace w = tr ++ [ev_thread_stop b]) /\
   stack (thread w) = [] /\ finished (thread w) = []).
Proof.
  split; [reflexivity|]. split; [reflexivity|]. split; [reflexivity|].
  apply no_frame_lost; reflexivity.
Defined.

Lemma enter_stack_frame_links_witness :
  let th := thread (Thread_new ticks_clock ticks_clock (mkProcess true 0%N BaseCallback)) in
  let caller := mkTimer 0 0 0 0%N 1%N 0%N 0%N 0 in
  stack th = caller :: [] /\
  exists fr,
    stack (enter_stack_frame ticks_clock ticks_clock th) =
      fr :: set_youngest_child_index caller (next_index th) :: [] /\
    index fr = next_index th /\
    caller_index fr = index caller /\
    prev_index fr = youngest_child_index caller /\
    youngest_child_index (set_youngest_child_index caller (next_index th)) = index fr.
Proof.
  intros th caller. split; [vm_compute; reflexivity|].
  apply (proj1 (enter_stack_frame_links ticks_clock ticks_clock) th caller []).
  vm_compute. reflexivity.
Defined.

Lemma call_tree_links_witness :
  properly_nested [Enter; Enter; Exit; Enter] = true /\
  (N.of_nat (count_enters [Enter; Enter; Exit; Enter]) < size_max)%N /\
  (let F := all_frames (run_ops ticks_clock ticks_clock
              (Thread_new ticks_clock ticks_clock (mkProcess true 1%N StoreCallback))
              [Enter; Enter; Exit; Enter]) in
   NoDup (map index F) /\
   (forall c, In c F -> index c = 0 -> caller_index c = 0 /\ prev_index c = 0) /\
   (forall c, In c F -> 0 < index c -> caller_index c < index c) /\
   (forall P, In P F ->
      exists l, prev_chain F (youngest_child_index P) l /\ NoDup l /\
        (forall j, In j l <->
           exists c, In c F /\ index c = j /\ 0 < j /\ caller_index c = index P))).
Proof.
  split; [reflexivity|]. split; [reflexivity|].
  apply call_tree_links; reflexivity.
Defined.

Lemma frame_order_witness :
  (forall a b c, (a <= b)%N -> (b <= c)%N -> (a <= c)%N) /\
  (forall k, (ticks_clock k <= ticks_clock (S k))%N) /\
  balanced [Enter; Enter; Exit; Exit] = true /\
  callback (mkProcess true 1%N StoreCallback) = StoreCallback /\
  (N.of_nat (count_enters [Enter; Enter; Exit; Exit]) < size_max)%N /\
  (let D := delivered (trace (Thread_drop ticks_clock ticks_clock
              (run_ops ticks_clock ticks_clock
                 (Thread_new ticks_clock ticks_clock (mkProcess true 1%N StoreCallback))
                 [Enter; Enter; Exit; Exit]))) in
   Permutation (map index D) (seq 0 (S (count_enters [Enter; Enter; Exit; Exit]))) /\
   (forall a b, In a D -> In b D -> index a < index b ->
      (start_wall a <= start_wall b)%N /\ (start_cpu a <= start_cpu b)%N) /\
   StronglySorted (stop_rel N.le) D).
Proof.
  assert (Htr : forall a b c, (a <= b)%N -> (b <= c)%N -> (a <= c)%N) by (intros; lia).
  assert (Hk : forall k, (ticks_clock k <= ticks_clock (S k))%N)
    by (intros k; unfold ticks_clock; lia).
  split; [exact Htr|]. split; [exact Hk|]. split; [reflexivity|]. split; [reflexivity|].
  split; [reflexivity|].
  apply (frame_order N.le ticks_clock ticks_clock);
    [exact Htr | exact Hk | exact Hk | reflexivity | reflexivity | reflexivity].
Defined.

Lemma exit_flush_policy_witness :
  let w := run_ops ticks_clock ticks_clock
             (Thread_new ticks_clock ticks_clock (mkProcess true 2%N StoreCallback)) [Enter] in
  let top := mkTimer 1 0 0 2%N 3%N 0%N 0%N 0 in
  let rest := [mkTimer 0 0 0 0%N 1%N 0%N 0%N 1] in
  stack (thread w) = top :: rest /\
  (let k := ticks (thread w) in
   let f := fst (fst (stop_timers ticks_clock ticks_clock top k)) in
   let w0 := set_thread w (mkThread rest (finished (thread w) ++ [f]) (next_index (thread w))
                             (last_log (thread w)) (S (S k))
                             (failed (thread w) ++ snd (stop_timers ticks_clock ticks_clock top k))) in
   exit_stack_frame ticks_clock ticks_clock w =
     (if flush_due (policy_of_period (callback_period (process w))) (last_log (thread w)) (stop_cpu f)
      then thread_in_situ w0 else w0) /\
   (callback (process w) = StoreCallback ->
      finished (thread (thread_in_situ w0)) = [] /\
      trace (thread_in_situ w0) = trace w ++ [ev_thread_in_situ (finished (thread w) ++ [f])])).
Proof.
  intros w top rest. split; [vm_compute; reflexivity|].
  apply exit_flush_policy. vm_compute. reflexivity.
Defined.

Lemma disabled_scope_timer_noop_witness :
  let w := Thread_new ticks_clock ticks_clock (mkProcess false 0%N StoreCallback) in
  enabled (process w) = false /\
  snd (ScopeTimer_new ticks_clock ticks_clock w) = w /\
  scope_enabled (fst (ScopeTimer_new ticks_clock ticks_clock w)) = false /\
  (forall w', ScopeTimer_drop ticks_clock ticks_clock
                (fst (ScopeTimer_new ticks_clock ticks_clock w)) w' = w').
Proof.
  intros w. split; [reflexivity|].
  apply disabled_scope_timer_noop. reflexivity.
Defined.

Lemma timer_assertions_witness :
  let cc := fun k => N.of_nat (S k) in
  let pr := mkProcess true 1%N BaseCallback in
  (forall k, cc k <> 0%N) /\
  properly_nested [Enter; Exit; Enter] = true /\
  failed (thread (run_ops ticks_clock cc (Thread_new ticks_clock cc pr) [Enter; Exit; Enter])) = [] /\
  balanced [Enter; Exit] = true /\
  failed (thread (Thread_drop ticks_clock cc
    (run_ops ticks_clock cc (Thread_new ticks_clock cc pr) [Enter; Exit]))) = [] /\
  In "timer already started"%string
    (snd (start_timers ticks_clock cc (mkTimer 1 0 0 0%N 5%N 0%N 0%N 0) 0)) /\
  In "timer never started"%string
    (snd (stop_timers ticks_clock cc (mkTimer 1 0 0 0%N 0%N 0%N 0%N 0) 0)).
Proof.
  intros cc pr.
  assert (Hnz : forall k, cc k <> 0%N) by (intros k; unfold cc; lia).
  destruct (timer_assertions ticks_clock cc pr [Enter; Exit; Enter] Hnz) as [H1 [_ [H3 H4]]].
  destruct (timer_assertions ticks_clock cc pr [Enter; Exit] Hnz) as [_ [H2 _]].
  split; [exact Hnz|]. split; [reflexivity|]. split; [apply H1; reflexivity|].
  split; [reflexivity|]. split; [apply H2; reflexivity|].
  split; [apply H3; discriminate | apply H4; reflexivity].
Defined.

(** ** Instances of the further properties on concrete runs *)

Lemma callback_once_hooks_witness :
  callback_period (mkProcess true 0%N StoreCallback) = 0%N /\
  (let w := run_ops ticks_clock ticks_clock
              (Thread_new ticks_clock ticks_clock (mkProcess true 0%N StoreCallback))
              [Enter; Enter; Exit; Exit] in
   trace w = [ev_thread_start] /\
   exists b, trace (Thread_drop ticks_clock ticks_clock w) = [ev_thread_start; ev_thread_stop b]).
Proof. split; [reflexivity|]. apply callback_once_hooks. reflexivity. Defined.

Lemma every_frame_batches_witness :
  callback_period (mkProcess true 1%N StoreCallback) = 1%N /\
  callback (mkProcess true 1%N StoreCallback) = StoreCallback /\
  close_depth 0 [Enter; Enter; Exit] = Some 1 /\
  (let w := run_ops ticks_clock ticks_clock
              (Thread_new ticks_clock ticks_clock (mkProcess true 1%N StoreCallback))
              [Enter; Enter; Exit] in
   let D := delivered (trace w) in
   finished (thread w) = [] /\
   trace w = ev_thread_start :: map (fun f => ev_thread_in_situ [f]) D /\
   List.length D + 1 = count_enters [Enter; Enter; Exit] /\
   (forall top rest, stack (thread w) = top :: rest ->
      let f := fst (fst (stop_timers ticks_clock ticks_clock top (ticks (thread w)))) in
      links f = links top /\
      trace (exit_stack_frame ticks_clock ticks_clock w) = trace w ++ [ev_thread_in_situ [f]] /\
      finished (thread (exit_stack_frame ticks_clock ticks_clock w)) = [] /\
      (rest = [] ->
         index top = 0 /\ caller_index top = 0 /\
         trace (Thread_drop ticks_clock ticks_clock w) =
           trace w ++ [ev_thread_in_situ [f]; ev_thread_stop []]))).
Proof.
  split; [reflexivity|]. split; [reflexivity|]. split; [reflexivity|].
  apply every_frame_batches; reflexivity.
Defined.

Lemma leaf_and_prev_meaning_witness :
  properly_nested [Enter; Enter; Exit; Enter] = true /\
  (N.of_nat (count_enters [Enter; Enter; Exit; Enter]) < size_max)%N /\
  (let F := all_frames (run_ops ticks_clock ticks_clock
              (Thread_new ticks_clock ticks_clock (mkProcess true 2%N BaseCallback))
              [Enter; Enter; Exit; Enter]) in
   (forall P, In P F ->
      is_leaf P = true <-> ~ exists c, In c F /\ 0 < index c /\ caller_index c = index P) /\
   (forall c, In c F -> 0 < index c ->
      has_prev c = true <->
      exists e, In e F /\ 0 < index e /\ index e < index c /\ caller_index e = caller_index c)).
Proof.
  split; [reflexivity|]. split; [reflexivity|].
  apply leaf_and_prev_meaning; reflexivity.
Defined.

Lemma registry_count_tracks_entry_witness :
  let pr := mkProcess true 1%N StoreCallback in
  let os := [Create 1; Create 2; Use 1 (thread_use ticks_clock ticks_clock pr [Enter; Exit]);
             Create 1; Delete 2; Delete 1] in
  (N.of_nat (List.length os) < size_max)%N /\
  (let r := run_registry (thread_construct ticks_clock ticks_clock)
              (thread_destroy ticks_clock ticks_clock) (Registry_new pr) os in
   forall id, (threads r id = None <-> thread_use_count r id = 0%N) /\
              (threads r id = None ->
               delete_thread (thread_destroy ticks_clock ticks_clock) r id = r)).
Proof.
  intros pr os. split; [reflexivity|].
  apply registry_count_tracks_entry. reflexivity.
Defined.

Lemma thread_lifetime_witness :
  let pr := mkProcess true 1%N StoreCallback in
  let construct := thread_construct ticks_clock ticks_clock in
  let destroy := thread_destroy ticks_clock ticks_clock in
  let r := Registry_new (V := Thread * list Event) (Out := list Event) pr in
  let mid := [Create 1; Use 1 (thread_use ticks_clock ticks_clock pr [Enter; Exit]);
              Create 2; Delete 2; Delete 1] in
  threads r 1 = None /\ thread_use_count r 1 = 0%N /\
  live_containers 1 1 mid = Some 1 /\
  (N.of_nat (S (List.length mid)) < size_max)%N /\
  (let v := uses_of 1 mid (construct (reg_config r)) in
   let r1 := run_registry construct destroy r (Create 1 :: mid) in
   let keep := filter (fun e : ThreadId * list Event => Nat.eqb (fst e) 1) in
   threads r1 1 = Some v /\ thread_use_count r1 1 = N.of_nat 1 /\ 0 < 1 /\
   keep (destroyed r1) = keep (destroyed r) /\
   (forall j, j < 1 ->
      threads (run_registry construct destroy r1 (repeat (Delete 1) j)) 1 = Some v) /\
   (let r2 := run_registry construct destroy r1 (repeat (Delete 1) 1) in
    threads r2 1 = None /\ thread_use_count r2 1 = 0%N /\
    keep (destroyed r2) = keep (destroyed r) ++ [(1, destroy (reg_config r) v)])).
Proof.
  intros pr construct destroy r mid.
  split; [reflexivity|]. split; [reflexivity|]. split; [reflexivity|]. split; [reflexivity|].
  apply thread_lifetime; reflexivity.
Defined.

Lemma stack_drop_root_only_witness :
  let w := CpuTimer2.Stack_new ticks_clock ticks_clock (CpuTimer2.mkProcess true 0%N true) in
  let r := CpuTimer2.mkFrame 0 0 0%N 1%N 0 0%N 0%N 0 in
  CpuTimer2.stack (CpuTimer2.st w) = [r] /\
  (let '(r', _, fails) := CpuTimer2.stop_timer ticks_clock ticks_clock r
                            (CpuTimer2.stack_stop_index (CpuTimer2.st w))
                            (CpuTimer2.ticks (CpuTimer2.st w)) in
   let w' := CpuTimer2.Stack_drop ticks_clock ticks_clock w in
   CpuTimer2.stack (CpuTimer2.st w') = [] /\ CpuTimer2.finished (CpuTimer2.st w') = [] /\
   CpuTimer2.process w' = CpuTimer2.process w /\
   CpuTimer2.failed (CpuTimer2.st w') = CpuTimer2.failed (CpuTimer2.st w) ++ fails ++
     (if Nat.eqb 0 (CpuTimer2.function_name r) then [] else [CpuTimer2.misaligned_msg]) /\
   List.concat (CpuTimer2.calls w') =
     List.concat (CpuTimer2.calls w) ++
     (if CpuTimer2.callback (CpuTimer2.process w)
      then CpuTimer2.finished (CpuTimer2.st w) ++ [r'] else [])).
Proof.
  intros w r. split; [vm_compute; reflexivity|].
  apply CpuTimer2Facts.stack_drop_root_only. vm_compute. reflexivity.
Defined.

Lemma stack_numbering_witness :
  let p := CpuTimer2.mkProcess true 3%N true in
  let os := [(Enter, 5); (Enter, 6); (Exit, 6); (Enter, 7); (Exit, 7); (Exit, 5)] in
  CpuTimer2.callback p = true /\ balanced (map fst os) = true /\
  (N.of_nat (count_enters (map fst os)) < size_max)%N /\
  (let D := List.concat (CpuTimer2.calls (CpuTimer2.Stack_drop ticks_clock ticks_clock
              (CpuTimer2.run_ops ticks_clock ticks_clock (CpuTimer2.Stack_new ticks_clock ticks_clock p) os))) in
   List.length D = S (count_enters (map fst os)) /\
   map CpuTimer2.stop_index D = seq 0 (List.length D) /\
   Permutation (map CpuTimer2.start_index D) (seq 0 (List.length D)) /\
   (forall f, In f D -> 0 < CpuTimer2.start_index f ->
      CpuTimer2.caller_start_index f < CpuTimer2.start_index f) /\
   (forall f, In f D -> CpuTimer2.start_index f = 0 -> CpuTimer2.caller_start_index f = 0)).
Proof.
  intros p os. split; [reflexivity|]. split; [reflexivity|]. split; [reflexivity|].
  apply CpuTimer2Facts.stack_numbering; reflexivity.
Defined.

Lemma stack_drop_main_only_witness :
  let w := CpuTimer1.Stack_new ticks_clock ticks_clock true 0%N false in
  let r := CpuTimer1.mkStackFrame CpuTimer1.thread_main 0 1%N 2%N 1 0%N 0%N 0 in
  CpuTimer1.stack (CpuTimer1.st w) = [r] /\
  (let '(r', _, fails) := CpuTimer1.stop_timer ticks_clock ticks_clock r
                            (CpuTimer1.stack_stop_index (CpuTimer1.st w))
                            (CpuTimer1.ticks (CpuTimer1.st w)) in
   let w' := CpuTimer1.Stack_drop ticks_clock ticks_clock w in
   let xs := fails ++ (if Nat.eqb CpuTimer1.thread_main (CpuTimer1.function_name r) then []
                       else ["function_name == stack.back().get_function_name()"%string]) in
   CpuTimer1.stack (CpuTimer1.st w') = [] /\
   if CpuTimer1.callback (CpuTimer1.st w)
   then CpuTimer1.finished (CpuTimer1.st w') = [] /\
        List.concat (CpuTimer1.calls w') =
          List.concat (CpuTimer1.calls w) ++ CpuTimer1.finished (CpuTimer1.st w) ++ [r'] /\
        CpuTimer1.failed (CpuTimer1.st w') = CpuTimer1.failed (CpuTimer1.st w) ++ xs
   else CpuTimer1.finished (CpuTimer1.st w') = CpuTimer1.finished (CpuTimer1.st w) ++ [r'] /\
        CpuTimer1.calls w' = CpuTimer1.calls w /\
        CpuTimer1.failed (CpuTimer1.st w') =
          CpuTimer1.failed (CpuTimer1.st w) ++ xs ++ ["finished.empty()"%string]).
Proof.
  intros w r. split; [vm_compute; reflexivity|].
  apply CpuTimer1Facts.stack_drop_main_only. vm_compute. reflexivity.
Defined.
